(** * useUserFactory: the stateful async-operation factory

  A shallow embedding of
  [packages/composables/src/factories/useUserFactory.ts].

  The hook keeps three shared cells ([user], [loading], [error]) and wraps
  seven injected asynchronous implementations.  Every wrapped operation is
  an [async] function with exactly one [await]; it is embedded as a
  computation in a resumption monad over the shared store, so that the
  point where the operation is suspended on the injected implementation is
  explicit and the outcome of that implementation is supplied from
  outside. *)

From stdpp Require Import base option list strings gmap.

Open Scope string_scope.
Open Scope list_scope.

(** ** Names of the error slots

  The keys of [CustomUseUserErrors] (= [UseUserErrors & { updateEmail }]). *)
Module Slot.
Inductive t : Set :=
| updateUser | register | login | logout | changePassword | load | updateEmail.

End Slot.

Section UseUserFactory.

(** Type parameters of the factory.  [USER] and [UPDATE_USER_PARAMS] are the
    generics of [useUserFactory]; [Err] is whatever an implementation
    throws; [Val] is an untyped JavaScript value ([customQuery], passwords,
    the properties of a spread object), with [undefined] among them. *)
Variables USER UPDATE_USER_PARAMS Err Val : Type.
Variable undefined : Val.

(** [mask] is imported from [@vue-storefront/core]; it is taken as a
    parameter. *)
Variable mask : Val -> Val.

(** JavaScript truthiness of a user value, used by [isAuthenticated]. *)
Variable Boolean : USER -> bool.

(** A plain JavaScript object used as a property bag; reading an absent
    property yields [undefined]. *)
Definition prop (o : gmap string Val) (k : string) : Val :=
  default undefined (o !! k).

(** ** The error map *)

Record CustomUseUserErrors : Type := mkErrors {
  err_updateUser : option Err;
  err_register : option Err;
  err_login : option Err;
  err_logout : option Err;
  err_changePassword : option Err;
  err_load : option Err;
  err_updateEmail : option Err
}.

Definition errorsFactory : CustomUseUserErrors :=
  {| err_updateUser := None;
     err_register := None;
     err_login := None;
     err_logout := None;
     err_changePassword := None;
     err_load := None;
     err_updateEmail := None |}.

(** [e[k]] *)
Definition slot (k : Slot.t) (e : CustomUseUserErrors) : option Err :=
  match k with
  | Slot.updateUser => err_updateUser e
  | Slot.register => err_register e
  | Slot.login => err_login e
  | Slot.logout => err_logout e
  | Slot.changePassword => err_changePassword e
  | Slot.load => err_load e
  | Slot.updateEmail => err_updateEmail e
  end.

(** [e[k] = v] *)
Definition assign (k : Slot.t) (v : option Err) (e : CustomUseUserErrors)
  : CustomUseUserErrors :=
  match k with
  | Slot.updateUser =>
      mkErrors v (err_register e) (err_login e) (err_logout e)
               (err_changePassword e) (err_load e) (err_updateEmail e)
  | Slot.register =>
      mkErrors (err_updateUser e) v (err_login e) (err_logout e)
               (err_changePassword e) (err_load e) (err_updateEmail e)
  | Slot.login =>
      mkErrors (err_updateUser e) (err_register e) v (err_logout e)
               (err_changePassword e) (err_load e) (err_updateEmail e)
  | Slot.logout =>
      mkErrors (err_updateUser e) (err_register e) (err_login e) v
               (err_changePassword e) (err_load e) (err_updateEmail e)
  | Slot.changePassword =>
      mkErrors (err_updateUser e) (err_register e) (err_login e)
               (err_logout e) v (err_load e) (err_updateEmail e)
  | Slot.load =>
      mkErrors (err_updateUser e) (err_register e) (err_login e)
               (err_logout e) (err_changePassword e) v (err_updateEmail e)
  | Slot.updateEmail =>
      mkErrors (err_updateUser e) (err_register e) (err_login e)
               (err_logout e) (err_changePassword e) (err_load e) v
  end.

(** ** The injected implementations

    [_factoryParams = configureFactoryParams(factoryParams)] binds the
    context argument; a call [_factoryParams.f(args)] is recorded with the
    argument object the wrapper builds for it. *)
Inductive ImplCall : Type :=
| call_load (customQuery : Val)
| call_logOut (currentUser : option USER)
| call_updateUser (currentUser : option USER)
                  (updatedUserData : UPDATE_USER_PARAMS) (customQuery : Val)
| call_register (params : gmap string Val)
| call_logIn (params : gmap string Val)
| call_changePassword (currentUser : option USER)
                      (currentPassword newPassword customQuery : Val)
| call_updateEmail (currentUser : option USER)
                   (updatedUserData : UPDATE_USER_PARAMS) (customQuery : Val).

(** What the promise of each implementation resolves with
    ([Promise<USER>] or [Promise<void>]). *)
Definition returns (c : ImplCall) : Type :=
  match c with
  | call_logOut _ | call_updateEmail _ _ _ => unit
  | _ => option USER
  end.

(** How a promise settles, and how a block of code completes. *)
Inductive Outcome (A : Type) : Type :=
| Resolved (a : A)
| Rejected (e : Err).
Arguments Resolved {A} a.
Arguments Rejected {A} e.

(** ** The shared store and what is observable of a run *)

Inductive Payload : Type :=
| PNothing
| PUser (u : option USER)
| PUpdate (d : UPDATE_USER_PARAMS)
| PObject (o : gmap string Val)
| PMasked (currentPassword newPassword : Val).

Inductive Event : Type :=
| Logger_debug (tag : string) (p : Payload)
| Logger_error (tag : string) (e : Err)
| WriteUser (v : option USER)
| WriteLoading (b : bool)
| WriteError (m : CustomUseUserErrors)
| WriteErrorSlot (k : Slot.t) (v : option Err)
| Invoke (c : ImplCall).

(** [user], [loading] and [error] are the three [sharedRef] cells; [trace]
    is the history of log calls, cell writes and implementation calls, in
    program order. *)
Record Store : Type := mkStore {
  user : option USER;
  loading : bool;
  error : CustomUseUserErrors;
  trace : list Event
}.

(** [sharedRef(null, ...)], [sharedRef(false, ...)],
    [sharedRef(errorsFactory(), ...)]. *)
Definition initial : Store :=
  {| user := None; loading := false; error := errorsFactory; trace := [] |}.

Definition emit (ev : Event) (s : Store) : Store :=
  mkStore (user s) (loading s) (error s) (trace s ++ [ev]).

(** ** Resumptions

    A started computation has either finished, or is suspended at an
    [await] on an implementation call and continues from whatever store it
    finds when the promise settles. *)
Inductive Susp (A : Type) : Type :=
| Fin (s : Store) (r : Outcome A)
| Wait (s : Store) (c : ImplCall) (k : Outcome (returns c) -> Store -> Susp A).
Arguments Fin {A} s r.
Arguments Wait {A} s c k.

Definition Async (A : Type) : Type := Store -> Susp A.

Fixpoint susp_bind {A B} (x : Susp A) (f : A -> Async B) : Susp B :=
  match x with
  | Fin s (Resolved a) => f a s
  | Fin s (Rejected e) => Fin s (Rejected e)
  | Wait s c k => Wait s c (fun o s' => susp_bind (k o s') f)
  end.

#[global] Instance async_ret : MRet Async :=
  fun A a s => Fin s (Resolved a).
#[global] Instance async_bind : MBind Async :=
  fun A B f m s => susp_bind (m s) f.

(** [await _factoryParams.f(args)] *)
Definition await (c : ImplCall) : Async (returns c) :=
  fun s =>
    Wait (emit (Invoke c) s) c
         (fun o s' => Fin s' o).

(** [try { body } catch (err) { handler }] *)
Fixpoint susp_catch {A} (x : Susp A) (handler : Err -> Async A) : Susp A :=
  match x with
  | Fin s (Resolved a) => Fin s (Resolved a)
  | Fin s (Rejected e) => handler e s
  | Wait s c k => Wait s c (fun o s' => susp_catch (k o s') handler)
  end.

(** [try { body } finally { release }]: the completion of [body] is kept
    unless [release] itself throws. *)
Fixpoint susp_finally {A} (x : Susp A) (release : Async unit) : Susp A :=
  match x with
  | Fin s r => susp_bind (release s) (fun _ s' => Fin s' r)
  | Wait s c k => Wait s c (fun o s' => susp_finally (k o s') release)
  end.

Definition try_catch {A} (body : Async A) (handler : Err -> Async A)
  : Async A :=
  fun s => susp_catch (body s) handler.

Definition try_catch_finally {A} (body : Async A) (handler : Err -> Async A)
    (release : Async unit) : Async A :=
  fun s => susp_finally (susp_catch (body s) handler) release.

(** ** Primitive statements *)

Definition log_debug (tag : string) (p : Payload) : Async unit :=
  fun s => Fin (emit (Logger_debug tag p) s) (Resolved tt).

Definition log_error (tag : string) (e : Err) : Async unit :=
  fun s => Fin (emit (Logger_error tag e) s) (Resolved tt).

(** [user.value] *)
Definition read_user : Async (option USER) :=
  fun s => Fin s (Resolved (user s)).

(** [user.value = v] *)
Definition write_user (v : option USER) : Async unit :=
  fun s =>
    Fin (mkStore v (loading s) (error s) (trace s ++ [WriteUser v]))
        (Resolved tt).

(** [loading.value = b] *)
Definition write_loading (b : bool) : Async unit :=
  fun s =>
    Fin (mkStore (user s) b (error s) (trace s ++ [WriteLoading b]))
        (Resolved tt).

(** [error.value = m] *)
Definition write_error (m : CustomUseUserErrors) : Async unit :=
  fun s =>
    Fin (mkStore (user s) (loading s) m (trace s ++ [WriteError m]))
        (Resolved tt).

(** [error.value.k = v] *)
Definition write_error_slot (k : Slot.t) (v : option Err) : Async unit :=
  fun s =>
    Fin (mkStore (user s) (loading s) (assign k v (error s))
                 (trace s ++ [WriteErrorSlot k v]))
        (Resolved tt).

(** ** The hook produced by [useUserFactory(factoryParams)] *)

(** The argument [{ user: providedUser, customQuery }] that [updateUser],
    [register], [login] and [updateEmail] destructure. *)
Record UserParams (P : Type) : Type := mkUserParams {
  providedUser : P;
  customQuery : Val
}.
Arguments mkUserParams {P} providedUser customQuery.
Arguments providedUser {P} u.
Arguments customQuery {P} u.

Definition setUser (newUser : option USER) : Async unit :=
  write_user newUser ;;
  log_debug "useUserFactory.setUser" (PUser newUser).

Definition resetErrorValue : Async unit :=
  write_error errorsFactory.

Definition updateUser (p : UserParams UPDATE_USER_PARAMS) : Async unit :=
  log_debug "useUserFactory.updateUser" (PUpdate (providedUser p)) ;;
  resetErrorValue ;;
  try_catch_finally
    (write_loading true ;;
     currentUser ← read_user;
     u ← await (call_updateUser currentUser (providedUser p) (customQuery p));
     write_user u ;;
     write_error_slot Slot.updateUser None)
    (λ err,
     write_error_slot Slot.updateUser (Some err) ;;
     log_error "useUser/updateUser" err)
    (write_loading false).

(** [{...providedUser, customQuery}] *)
Definition spread_with_customQuery (p : UserParams (gmap string Val))
  : gmap string Val :=
  <["customQuery" := customQuery p]> (providedUser p).

Definition register (p : UserParams (gmap string Val)) : Async unit :=
  log_debug "useUserFactory.register" (PObject (providedUser p)) ;;
  resetErrorValue ;;
  try_catch_finally
    (write_loading true ;;
     (* In Vendure the register will return boolean instead of customer so
        we cannot save it as user. *)
     _ ← await (call_register (spread_with_customQuery p));
     write_error_slot Slot.register None)
    (λ err,
     write_error_slot Slot.register (Some err) ;;
     log_error "useUser/register" err)
    (write_loading false).

Definition login (p : UserParams (gmap string Val)) : Async unit :=
  log_debug "useUserFactory.login" (PObject (providedUser p)) ;;
  resetErrorValue ;;
  try_catch_finally
    (write_loading true ;;
     u ← await (call_logIn (spread_with_customQuery p));
     write_user u ;;
     write_error_slot Slot.login None)
    (λ err,
     write_error_slot Slot.login (Some err) ;;
     log_error "useUser/login" err)
    (write_loading false).

Definition logout : Async unit :=
  log_debug "useUserFactory.logout" PNothing ;;
  resetErrorValue ;;
  try_catch
    (currentUser ← read_user;
     _ ← await (call_logOut currentUser);
     write_error_slot Slot.logout None ;;
     write_user None)
    (λ err,
     write_error_slot Slot.logout (Some err) ;;
     log_error "useUser/logout" err).

Definition changePassword (params : gmap string Val) : Async unit :=
  log_debug "useUserFactory.changePassword"
            (PMasked (mask (prop params "current")) (mask (prop params "new"))) ;;
  resetErrorValue ;;
  try_catch_finally
    (write_loading true ;;
     currentUser ← read_user;
     u ← await (call_changePassword currentUser
                  (prop params "currentPassword")
                  (prop params "newPassword")
                  (prop params "customQuery"));
     write_user u ;;
     write_error_slot Slot.changePassword None)
    (λ err,
     write_error_slot Slot.changePassword (Some err) ;;
     log_error "useUser/changePassword" err)
    (write_loading false).

(** [load] has a default argument, [{customQuery: undefined}], used when it
    is called without one. *)
Definition load (arg : option (gmap string Val)) : Async unit :=
  let customQuery := prop (default {["customQuery" := undefined]} arg) "customQuery" in
  log_debug "useUserFactory.load" PNothing ;;
  resetErrorValue ;;
  try_catch_finally
    (write_loading true ;;
     u ← await (call_load customQuery);
     write_user u ;;
     write_error_slot Slot.load None)
    (λ err,
     write_error_slot Slot.load (Some err) ;;
     log_error "useUser/load" err)
    (write_loading false).

Definition updateEmail (p : UserParams UPDATE_USER_PARAMS) : Async unit :=
  log_debug "useUserFactory.updateEmail" (PUpdate (providedUser p)) ;;
  resetErrorValue ;;
  try_catch_finally
    (write_loading true ;;
     currentUser ← read_user;
     _ ← await (call_updateEmail currentUser (providedUser p) (customQuery p));
     write_error_slot Slot.updateEmail None)
    (λ err,
     write_error_slot Slot.updateEmail (Some err) ;;
     log_error "useUser/updateEmail" err)
    (write_loading false).

(** The seven wrapped operations of the hook, with their arguments. *)
Inductive Operation : Type :=
| op_updateUser (p : UserParams UPDATE_USER_PARAMS)
| op_register (p : UserParams (gmap string Val))
| op_login (p : UserParams (gmap string Val))
| op_logout
| op_changePassword (params : gmap string Val)
| op_load (arg : option (gmap string Val))
| op_updateEmail (p : UserParams UPDATE_USER_PARAMS).

Definition run (op : Operation) : Async unit :=
  match op with
  | op_updateUser p => updateUser p
  | op_register p => register p
  | op_login p => login p
  | op_logout => logout
  | op_changePassword params => changePassword params
  | op_load arg => load arg
  | op_updateEmail p => updateEmail p
  end.

(** The key of [error.value] an operation writes. *)
Definition slot_of (op : Operation) : Slot.t :=
  match op with
  | op_updateUser _ => Slot.updateUser
  | op_register _ => Slot.register
  | op_login _ => Slot.login
  | op_logout => Slot.logout
  | op_changePassword _ => Slot.changePassword
  | op_load _ => Slot.load
  | op_updateEmail _ => Slot.updateEmail
  end.

(** The callable members of the object [useUser()] returns: [setUser] and
    the seven operations. *)
Inductive Member : Type :=
| member_setUser (newUser : option USER)
| member_op (op : Operation).

Definition call (m : Member) : Async unit :=
  match m with
  | member_setUser newUser => setUser newUser
  | member_op op => run op
  end.

(** The remaining members are [computed] getters over the cells. *)
Definition computed_user (s : Store) : option USER := user s.
Definition computed_loading (s : Store) : bool := loading s.
Definition computed_error (s : Store) : CustomUseUserErrors := error s.
Definition isAuthenticated (s : Store) : bool :=
  match user s with
  | Some u => Boolean u
  | None => false
  end.

(** ** Running an invocation

    [Impl] is the behaviour of [_factoryParams]: how the promise of each
    call settles.  [settle] drives a started invocation to the point where
    its own promise settles; [others] is what the rest of the program did to
    the store while the invocation was suspended at its [await]. *)
Definition Impl : Type := ∀ c : ImplCall, Outcome (returns c).

Fixpoint settle_among {A} (others : Store -> Store) (impl : Impl) (x : Susp A)
  : Store * Outcome A :=
  match x with
  | Fin s r => (s, r)
  | Wait s c k => settle_among others impl (k (impl c) (others s))
  end.

(** An invocation that runs alone. *)
Definition settle {A} (impl : Impl) (x : Susp A) : Store * Outcome A :=
  settle_among id impl x.

(** The store in which a started invocation is suspended, if it is. *)
Definition suspended {A} (x : Susp A) : option Store :=
  match x with
  | Fin _ _ => None
  | Wait s _ _ => Some s
  end.

(** What the implementation awaited by a started invocation answered. *)
Inductive Reply : Type :=
| Returned (u : option USER)
| ReturnedVoid
| Threw (e : Err).

Definition reply_of (c : ImplCall) : Outcome (returns c) -> Reply :=
  match c with
  | call_logOut _ | call_updateEmail _ _ _ =>
      λ o, match o with Resolved _ => ReturnedVoid | Rejected e => Threw e end
  | _ =>
      λ o, match o with Resolved u => Returned u | Rejected e => Threw e end
  end.

Definition awaited {A} (impl : Impl) (x : Susp A) : option (ImplCall * Reply) :=
  match x with
  | Fin _ _ => None
  | Wait _ c _ => Some (c, reply_of c (impl c))
  end.

Definition succeeded (r : Reply) : bool :=
  match r with
  | Threw _ => false
  | _ => true
  end.

Definition thrown (r : option (ImplCall * Reply)) : option Err :=
  match r with
  | Some (_, Threw e) => Some e
  | _ => None
  end.

(** Two parameter objects agree on every property outside [ks]. *)
Definition agree_except (ks : list string) (p1 p2 : gmap string Val) : Prop :=
  ∀ k, k ∉ ks → p1 !! k = p2 !! k.

(** The first thing a started invocation does. *)
Definition entry {A} (s : Store) (x : Susp A) : option Event :=
  s1 ← suspended x; trace s1 !! length (trace s).

(** A statement that completes normally at once. *)
Definition immediate {A} (m : Async A) : Prop :=
  ∀ s, ∃ s' a, m s = Fin s' (Resolved a).

End UseUserFactory.

Arguments Resolved {Err A} a.
Arguments Rejected {Err A} e.
Arguments mkErrors {Err}.
Arguments errorsFactory {Err}.
Arguments slot {Err} k e.
Arguments assign {Err} k v e.
Arguments call_load {USER UPDATE_USER_PARAMS Val}.
Arguments call_logOut {USER UPDATE_USER_PARAMS Val}.
Arguments call_updateUser {USER UPDATE_USER_PARAMS Val}.
Arguments call_register {USER UPDATE_USER_PARAMS Val}.
Arguments call_logIn {USER UPDATE_USER_PARAMS Val}.
Arguments call_changePassword {USER UPDATE_USER_PARAMS Val}.
Arguments call_updateEmail {USER UPDATE_USER_PARAMS Val}.
Arguments returns {USER UPDATE_USER_PARAMS Val} c.
Arguments PNothing {USER UPDATE_USER_PARAMS Val}.
Arguments PUser {USER UPDATE_USER_PARAMS Val}.
Arguments PUpdate {USER UPDATE_USER_PARAMS Val}.
Arguments PObject {USER UPDATE_USER_PARAMS Val}.
Arguments PMasked {USER UPDATE_USER_PARAMS Val}.
Arguments Logger_debug {USER UPDATE_USER_PARAMS Err Val}.
Arguments WriteUser {USER UPDATE_USER_PARAMS Err Val}.
Arguments WriteLoading {USER UPDATE_USER_PARAMS Err Val}.
Arguments WriteError {USER UPDATE_USER_PARAMS Err Val}.
Arguments WriteErrorSlot {USER UPDATE_USER_PARAMS Err Val}.
Arguments Logger_error {USER UPDATE_USER_PARAMS Err Val}.
Arguments Invoke {USER UPDATE_USER_PARAMS Err Val}.
Arguments mkStore {USER UPDATE_USER_PARAMS Err Val}.
Arguments user {USER UPDATE_USER_PARAMS Err Val} s.
Arguments loading {USER UPDATE_USER_PARAMS Err Val} s.
Arguments error {USER UPDATE_USER_PARAMS Err Val} s.
Arguments trace {USER UPDATE_USER_PARAMS Err Val} s.
Arguments initial {USER UPDATE_USER_PARAMS Err Val}.
Arguments mkUserParams {Val P}.
Arguments providedUser {Val P}.
Arguments customQuery {Val P}.
Arguments setUser {USER UPDATE_USER_PARAMS Err Val}.
Arguments updateUser {USER UPDATE_USER_PARAMS Err Val}.
Arguments register {USER UPDATE_USER_PARAMS Err Val}.
Arguments login {USER UPDATE_USER_PARAMS Err Val}.
Arguments logout {USER UPDATE_USER_PARAMS Err Val}.
Arguments changePassword {USER UPDATE_USER_PARAMS Err Val}.
Arguments load {USER UPDATE_USER_PARAMS Err Val}.
Arguments updateEmail {USER UPDATE_USER_PARAMS Err Val}.
Arguments op_updateUser {UPDATE_USER_PARAMS Val}.
Arguments op_register {UPDATE_USER_PARAMS Val}.
Arguments op_login {UPDATE_USER_PARAMS Val}.
Arguments op_logout {UPDATE_USER_PARAMS Val}.
Arguments op_changePassword {UPDATE_USER_PARAMS Val}.
Arguments op_load {UPDATE_USER_PARAMS Val}.
Arguments op_updateEmail {UPDATE_USER_PARAMS Val}.
Arguments run {USER UPDATE_USER_PARAMS Err Val}.
Arguments member_setUser {USER UPDATE_USER_PARAMS Val}.
Arguments member_op {USER UPDATE_USER_PARAMS Val}.
Arguments call {USER UPDATE_USER_PARAMS Err Val}.
Arguments settle_among {USER UPDATE_USER_PARAMS Err Val A}.
Arguments settle {USER UPDATE_USER_PARAMS Err Val A}.
Arguments suspended {USER UPDATE_USER_PARAMS Err Val A}.
Arguments Returned {USER Err}.
Arguments ReturnedVoid {USER Err}.
Arguments Threw {USER Err}.
Arguments awaited {USER UPDATE_USER_PARAMS Err Val A}.
Arguments succeeded {USER Err}.
Arguments agree_except {Val}.
Arguments entry {USER UPDATE_USER_PARAMS Err Val A}.
Arguments prop {Val} undefined o k.
Arguments Fin {USER UPDATE_USER_PARAMS Err Val A} s r.
Arguments Wait {USER UPDATE_USER_PARAMS Err Val A} s c k.
Arguments susp_bind {USER UPDATE_USER_PARAMS Err Val A B} x f.
Arguments susp_catch {USER UPDATE_USER_PARAMS Err Val A} x handler.
Arguments susp_finally {USER UPDATE_USER_PARAMS Err Val A} x release.
Arguments try_catch {USER UPDATE_USER_PARAMS Err Val A} body handler.
Arguments try_catch_finally {USER UPDATE_USER_PARAMS Err Val A} body handler release.
Arguments await {USER UPDATE_USER_PARAMS Err Val} c.
Arguments emit {USER UPDATE_USER_PARAMS Err Val} ev s.
Arguments log_debug {USER UPDATE_USER_PARAMS Err Val} tag p.
Arguments log_error {USER UPDATE_USER_PARAMS Err Val} tag e.
Arguments read_user {USER UPDATE_USER_PARAMS Err Val}.
Arguments write_user {USER UPDATE_USER_PARAMS Err Val} v.
Arguments write_loading {USER UPDATE_USER_PARAMS Err Val} b.
Arguments write_error {USER UPDATE_USER_PARAMS Err Val} m.
Arguments write_error_slot {USER UPDATE_USER_PARAMS Err Val} k v.
Arguments resetErrorValue {USER UPDATE_USER_PARAMS Err Val}.
Arguments spread_with_customQuery {Val} p.
Arguments slot_of {UPDATE_USER_PARAMS Val} op.
Arguments reply_of {USER UPDATE_USER_PARAMS Err Val} c.
Arguments thrown {USER UPDATE_USER_PARAMS Err Val} r.
Arguments immediate {USER UPDATE_USER_PARAMS Err Val A} m.

(** * A concrete storefront

    Users, update payloads and errors are strings; a JavaScript value is
    [undefined] or a string. *)

Inductive JsValue : Set :=
| js_undefined
| js_string (s : string).

(** A [mask] that hides every defined value. *)
Definition mask_stars (v : JsValue) : JsValue :=
  match v with
  | js_undefined => js_undefined
  | js_string _ => js_string "***"
  end.

(** Implementations that all resolve (with [u] where a user is expected),
    and implementations that all throw [e]. *)
Definition resolving (u : option string) : Impl string string string JsValue :=
  λ c,
    match c return Outcome string (returns c) with
    | call_load _ => Resolved u
    | call_logOut _ => Resolved ()
    | call_updateUser _ _ _ => Resolved u
    | call_register _ => Resolved u
    | call_logIn _ => Resolved u
    | call_changePassword _ _ _ _ => Resolved u
    | call_updateEmail _ _ _ => Resolved ()
    end.

Definition throwing (e : string) : Impl string string string JsValue :=
  λ c, Rejected e.

Definition credentials : UserParams JsValue (gmap string JsValue) :=
  mkUserParams
    {["username" := js_string "a@b.com"; "password" := js_string "x"]}
    js_undefined.

Definition registration : UserParams JsValue (gmap string JsValue) :=
  mkUserParams
    {["email" := js_string "a@b.com"; "password" := js_string "x"]}
    js_undefined.

Definition new_email : UserParams JsValue string :=
  mkUserParams "c@d.com" js_undefined.

(** The operations of the hook built over [mask_stars]. *)
Definition invoke (op : Operation string JsValue)
  : Async string string string JsValue () :=
  run js_undefined mask_stars op.

(** The store in which [load()], started on a fresh hook, waits for its
    implementation. *)
Definition while_loading : Store string string string JsValue :=
  default initial (suspended (invoke (op_load None) initial)).

(** The store a failed [login] leaves behind on a fresh hook. *)
Definition after_failed_login : Store string string string JsValue :=
  fst (settle (throwing "Invalid credentials") (invoke (op_login credentials) initial)).

(** The store after a successful [login] on a fresh hook, and the stores in
    which a [load] and an [updateEmail] started from there wait for their
    implementations. *)
Definition logged_in : Store string string string JsValue :=
  fst (settle (resolving (Some "alice")) (invoke (op_login credentials) initial)).

Definition while_reloading : Store string string string JsValue :=
  default logged_in (suspended (invoke (op_load None) logged_in)).

Definition while_updating_email : Store string string string JsValue :=
  default logged_in (suspended (invoke (op_updateEmail new_email) logged_in)).

(** Two requests with different passwords, and a third one that also fills
    the properties the entry log reads. *)
Definition request (current new : string) : gmap string JsValue :=
  <["currentPassword" := js_string current]>
    (<["newPassword" := js_string new]> ∅).

Definition request_with_logged_fields : gmap string JsValue :=
  <["current" := js_string "hunter2"]>
    (<["new" := js_string "tr0ub4dor"]> (request "hunter2" "tr0ub4dor")).

(** * Composing invocations *)

Arguments isAuthenticated {USER UPDATE_USER_PARAMS Err Val} Boolean s.

Section Composition.

Context {USER UPDATE_USER_PARAMS Err Val : Type}.
Variable undefined : Val.
Variable mask : Val → Val.

(** Members of the hook called one after the other, each one running alone
    until its promise settles, each with its own behaviour of the
    implementations. *)
Fixpoint run_sequence
    (calls : list (Impl USER UPDATE_USER_PARAMS Err Val
                   * Member USER UPDATE_USER_PARAMS Val))
    (s : Store USER UPDATE_USER_PARAMS Err Val)
  : Store USER UPDATE_USER_PARAMS Err Val :=
  match calls with
  | [] => s
  | (impl, m) :: rest =>
      run_sequence rest (fst (settle impl (call undefined mask m s)))
  end.

(** The store in which a started operation waits for its implementation. *)
Definition in_flight (op : Operation UPDATE_USER_PARAMS Val)
    (s : Store USER UPDATE_USER_PARAMS Err Val)
  : Store USER UPDATE_USER_PARAMS Err Val :=
  default s (suspended (run undefined mask op s)).

(** The store once an operation that ran alone has settled. *)
Definition completed (impl : Impl USER UPDATE_USER_PARAMS Err Val)
    (op : Operation UPDATE_USER_PARAMS Val)
    (s : Store USER UPDATE_USER_PARAMS Err Val)
  : Store USER UPDATE_USER_PARAMS Err Val :=
  fst (settle impl (run undefined mask op s)).

(** Two overlapping invocations: [outer] is started; while it waits, [inner]
    is started and runs until its promise settles; then [outer] resumes. *)
Definition overlap
    (impl_outer : Impl USER UPDATE_USER_PARAMS Err Val)
    (outer : Operation UPDATE_USER_PARAMS Val)
    (impl_inner : Impl USER UPDATE_USER_PARAMS Err Val)
    (inner : Operation UPDATE_USER_PARAMS Val)
    (s : Store USER UPDATE_USER_PARAMS Err Val)
  : Store USER UPDATE_USER_PARAMS Err Val :=
  fst (settle_among (completed impl_inner inner) impl_outer
         (run undefined mask outer s)).

(** What an invocation that took the store from [s] to [s'] appended to the
    trace. *)
Definition emitted (s s' : Store USER UPDATE_USER_PARAMS Err Val)
  : list (Event USER UPDATE_USER_PARAMS Err Val) :=
  drop (length (trace s)) (trace s').

Definition invocations (evs : list (Event USER UPDATE_USER_PARAMS Err Val))
  : list (ImplCall USER UPDATE_USER_PARAMS Val) :=
  omap (λ ev, match ev with Invoke c => Some c | _ => None end) evs.

Definition errors_logged (evs : list (Event USER UPDATE_USER_PARAMS Err Val))
  : list Err :=
  omap (λ ev, match ev with Logger_error _ e => Some e | _ => None end) evs.

Definition debug_logged (evs : list (Event USER UPDATE_USER_PARAMS Err Val))
  : list string :=
  omap (λ ev, match ev with Logger_debug tag _ => Some tag | _ => None end) evs.

(** The [currentUser] property of the argument of an implementation call,
    for the calls that have one. *)
Definition currentUser_of (c : ImplCall USER UPDATE_USER_PARAMS Val)
  : option (option USER) :=
  match c with
  | call_logOut u | call_updateUser u _ _ | call_changePassword u _ _ _
  | call_updateEmail u _ _ => Some u
  | _ => None
  end.

(** At most one slot of an error map holds an error. *)
Definition single_error (e : CustomUseUserErrors Err) : Prop :=
  ∀ k1 k2, is_Some (slot k1 e) → is_Some (slot k2 e) → k1 = k2.

End Composition.

(** * The checkout shipping page

    The [setup] function of [packages/theme/pages/Checkout/Shipping.vue] and
    the conditions under which its template renders the buttons and the
    shipping provider. *)

Module Shipping.
Section Setup.

Variables Val Err OrderAddress Address UserShipping : Type.
Variables undefined empty_string null : Val.

(** The value of [form]. *)
Record AddressForm : Type := mkForm {
  firstName : Val;
  lastName : Val;
  streetName : Val;
  apartment : Val;
  city : Val;
  state : Val;
  country : Val;
  postalCode : Val;
  phone : Val
}.

(** The helpers imported from [~/helpers] are parameters. *)
Variable mapAddressFormToOrderAddress : AddressForm → OrderAddress.
Variable getDefaultAddress : UserShipping → string → Address.
Variable mapAddressToAddressForm : Address → gmap string Val.

(** The refs of the component, [isFormSubmitted], [shouldDisplayButton] and
    [form], and the refs it reads from [useShipping], [useShippingProvider]
    and [useUserShipping]. *)
Record Page : Type := mkPage {
  isFormSubmitted : bool;
  shouldDisplayButton : bool;
  form : AddressForm;
  loading : bool;
  loadingShippingProvider : bool;
  userShipping : UserShipping
}.

(** The asynchronous functions of the composables that [setup] awaits. *)
Inductive Call : Type :=
| call_save (shippingDetails : OrderAddress)
| call_load
| call_loadUserShipping.

(** A started handler: finished, or waiting for a call and continuing in the
    page it finds when the promise of that call settles. *)
Inductive Handler (A : Type) : Type :=
| Done (w : Page) (r : Outcome Err A)
| Awaiting (w : Page) (c : Call) (k : Outcome Err () → Page → Handler A).
Arguments Done {A} w r.
Arguments Awaiting {A} w c k.

(** What [setup] creates, given the refs of the composables. *)
Definition setup (loading0 loadingShippingProvider0 : bool)
    (userShipping0 : UserShipping) : Page :=
  {| isFormSubmitted := false;
     shouldDisplayButton := false;
     form := {| firstName := empty_string;
                lastName := empty_string;
                streetName := empty_string;
                apartment := empty_string;
                city := empty_string;
                state := empty_string;
                country := empty_string;
                postalCode := empty_string;
                phone := null |};
     loading := loading0;
     loadingShippingProvider := loadingShippingProvider0;
     userShipping := userShipping0 |}.

Definition handleFormSubmit (w : Page) : Handler () :=
  let orderAddress := mapAddressFormToOrderAddress (form w) in
  Awaiting w (call_save orderAddress)
    (λ saved w',
       match saved with
       | Resolved _ =>
           Done (mkPage true (shouldDisplayButton w') (form w') (loading w')
                   (loadingShippingProvider w') (userShipping w'))
                (Resolved ())
       | Rejected e => Done w' (Rejected e)
       end).

Definition displayBillingButton (w : Page) : Handler () :=
  Done (mkPage (isFormSubmitted w) true (form w) (loading w)
          (loadingShippingProvider w) (userShipping w))
       (Resolved ()).

(** The callback given to [onSSR]. *)
Definition onSSR_callback (w : Page) : Handler () :=
  Awaiting w call_load (λ loaded w', Done w' loaded).

(** The callback given to [onMounted]. *)
Definition onMounted_callback (w : Page) : Handler () :=
  Awaiting w call_loadUserShipping
    (λ loaded w',
       match loaded with
       | Resolved _ =>
           let defaultAddress := getDefaultAddress (userShipping w') "shipping" in
           let formAddress := mapAddressToAddressForm defaultAddress in
           Done (mkPage (isFormSubmitted w') (shouldDisplayButton w')
                   {| firstName := prop undefined formAddress "firstName";
                      lastName := prop undefined formAddress "lastName";
                      streetName := prop undefined formAddress "streetName";
                      apartment := prop undefined formAddress "streetNumber";
                      city := prop undefined formAddress "city";
                      state := prop undefined formAddress "state";
                      country := prop undefined formAddress "country";
                      postalCode := prop undefined formAddress "postalCode";
                      phone := prop undefined formAddress "phone" |}
                   (loading w') (loadingShippingProvider w') (userShipping w'))
                (Resolved ())
       | Rejected e => Done w' (Rejected e)
       end).

(** The template: the "Select shipping method" button, the shipping
    provider, and the "Continue to billing" button. *)
Definition shows_submit_button (w : Page) : bool := negb (isFormSubmitted w).
Definition submit_button_disabled (w : Page) : bool := loading w.
Definition shows_shipping_provider (w : Page) : bool := isFormSubmitted w.
Definition shows_continue_button (w : Page) : bool := shouldDisplayButton w.
Definition continue_button_disabled (w : Page) : bool :=
  negb (shouldDisplayButton w) || loadingShippingProvider w.

(** Running a handler until its promise settles: [env] says how the awaited
    calls settle, [others] what happened to the page in the meantime. *)
Fixpoint settle_among {A} (others : Page → Page) (env : Call → Outcome Err ())
    (h : Handler A) : Page * Outcome Err A :=
  match h with
  | Done w r => (w, r)
  | Awaiting w c k => settle_among others env (k (env c) (others w))
  end.

(** The call a started handler waits for. *)
Definition awaiting {A} (h : Handler A) : option Call :=
  match h with
  | Done _ _ => None
  | Awaiting _ c _ => Some c
  end.

(** A handler resumed in the page [w'] with the outcome of its call. *)
Definition resumed {A} (h : Handler A) (o : Outcome Err ()) (w' : Page)
  : Handler A :=
  match h with
  | Done _ _ => h
  | Awaiting _ _ k => k o w'
  end.

Definition page_of {A} (h : Handler A) : Page :=
  match h with
  | Done w _ => w
  | Awaiting w _ _ => w
  end.

(** What can happen to the page, one turn of the event loop at a time: a
    submitted form resumes after [save]; the shipping provider, which exists
    only while it is rendered, reports that a method was selected; the
    [onMounted] callback resumes after [loadUserShipping]; the user edits the
    form; the composables change their refs. *)
Inductive turn : Page → Page → Prop :=
| turn_submitted w0 saved w :
    turn w (page_of (resumed (handleFormSubmit w0) saved w))
| turn_method_selected w :
    shows_shipping_provider w = true →
    turn w (page_of (displayBillingButton w))
| turn_mounted w0 loaded w :
    turn w (page_of (resumed (onMounted_callback w0) loaded w))
| turn_input f w :
    turn w (mkPage (isFormSubmitted w) (shouldDisplayButton w) (f (form w))
              (loading w) (loadingShippingProvider w) (userShipping w))
| turn_composables l lsp us w :
    turn w (mkPage (isFormSubmitted w) (shouldDisplayButton w) (form w)
              l lsp us).

(** The pages the component can be in. *)
Inductive reachable : Page → Prop :=
| reachable_setup l lsp us : reachable (setup l lsp us)
| reachable_turn w w' : reachable w → turn w w' → reachable w'.

End Setup.

Arguments mkForm {Val}.
Arguments firstName {Val} a.
Arguments lastName {Val} a.
Arguments streetName {Val} a.
Arguments apartment {Val} a.
Arguments city {Val} a.
Arguments state {Val} a.
Arguments country {Val} a.
Arguments postalCode {Val} a.
Arguments phone {Val} a.
Arguments mkPage {Val UserShipping}.
Arguments isFormSubmitted {Val UserShipping} p.
Arguments shouldDisplayButton {Val UserShipping} p.
Arguments form {Val UserShipping} p.
Arguments loading {Val UserShipping} p.
Arguments loadingShippingProvider {Val UserShipping} p.
Arguments userShipping {Val UserShipping} p.
Arguments call_save {OrderAddress}.
Arguments call_load {OrderAddress}.
Arguments call_loadUserShipping {OrderAddress}.
Arguments Done {Val Err OrderAddress UserShipping A} w r.
Arguments Awaiting {Val Err OrderAddress UserShipping A} w c k.
Arguments setup {Val UserShipping}.
Arguments handleFormSubmit {Val Err OrderAddress UserShipping}.
Arguments displayBillingButton {Val Err OrderAddress UserShipping}.
Arguments onSSR_callback {Val Err OrderAddress UserShipping}.
Arguments onMounted_callback {Val Err OrderAddress Address UserShipping}.
Arguments shows_submit_button {Val UserShipping} w.
Arguments submit_button_disabled {Val UserShipping} w.
Arguments shows_shipping_provider {Val UserShipping} w.
Arguments shows_continue_button {Val UserShipping} w.
Arguments continue_button_disabled {Val UserShipping} w.
Arguments settle_among {Val Err OrderAddress UserShipping A}.
Arguments awaiting {Val Err OrderAddress UserShipping A} h.
Arguments resumed {Val Err OrderAddress UserShipping A} h o w'.
Arguments page_of {Val Err OrderAddress UserShipping A} h.
Arguments turn {Val Err OrderAddress Address UserShipping}.
Arguments reachable {Val Err OrderAddress Address UserShipping}.

End Shipping.

(** A concrete shipping page: an order address is the form itself, the user
    has a list of saved addresses, and the default one is the first. *)
Definition saved_address : gmap string JsValue :=
  <["firstName" := js_string "Ada"]>
    (<["streetName" := js_string "Main St"]>
       (<["streetNumber" := js_string "12b"]> ∅)).

Definition first_address (addresses : list (gmap string JsValue))
    (kind : string) : gmap string JsValue :=
  default ∅ (head addresses).

Definition fresh_page : Shipping.Page JsValue (list (gmap string JsValue)) :=
  Shipping.setup (js_string "") js_undefined false false [].

Definition page_turn :=
  Shipping.turn (Err := string) js_undefined
    (λ f : Shipping.AddressForm JsValue, f) first_address (λ a, a).

Definition page_reachable :=
  Shipping.reachable (Err := string) js_undefined (js_string "") js_undefined
    (λ f : Shipping.AddressForm JsValue, f) first_address (λ a, a).

(** The page after the form was submitted and saved, and then after a
    shipping method was selected. *)
Definition page_submitted
  : Shipping.Page JsValue (list (gmap string JsValue)) :=
  Shipping.page_of
    (Shipping.resumed (Err := string)
       (Shipping.handleFormSubmit (λ f : Shipping.AddressForm JsValue, f) fresh_page)
       (Resolved ()) fresh_page).

Definition page_method_selected
  : Shipping.Page JsValue (list (gmap string JsValue)) :=
  Shipping.page_of
    (Shipping.displayBillingButton (Err := string)
       (OrderAddress := Shipping.AddressForm JsValue) page_submitted).

(** A sequence of calls on the hook, for the concrete storefront. *)
Definition session
  : list (Impl string string string JsValue * Member string string JsValue) :=
  [(throwing "Invalid credentials", member_op (op_login credentials));
   (resolving (Some "alice"), member_op (op_login credentials));
   (resolving (Some "alice"), member_op (op_updateEmail new_email));
   (throwing "offline", member_op op_logout);
   (resolving None, member_setUser (Some "bob"));
   (resolving None, member_op op_logout)].


(** * Properties of the hook

    ** Symbolic execution of the wrappers *)

Ltac exec :=
  unfold settle, call, run in *; cbn in *;
  unfold setUser, resetErrorValue, updateUser, register,
    login, logout, changePassword, load, updateEmail, try_catch_finally,
    try_catch, mbind, mret, async_bind, async_ret, await, log_debug,
    log_error, read_user, write_user, write_loading, write_error,
    write_error_slot, emit, entry, awaited, suspended in *;
  cbn in *.

Ltac branch impl :=
  match goal with
  | |- context [impl ?c] => destruct (impl c) as [?a|?e]; cbn in *
  | H : context [impl ?c] |- _ => destruct (impl c) as [?a|?e]; cbn in *
  end.

Ltac flatten_trace := rewrite <- ?app_assoc; cbn [app].

(** Closes [∀ x, ev x ∉ evs] for an explicit list [evs] in which no event is
    built from the constructor [ev]. *)
Ltac absent :=
  let H := fresh "Hin" in
  intros ? H;
  repeat (apply elem_of_cons in H as [H|H]; [discriminate H|]);
  by apply elem_of_nil in H.

Section Properties.

Context {USER UPDATE_USER_PARAMS Err Val : Type}.
Variable undefined : Val.
Variable mask : Val → Val.

Implicit Types (s : Store USER UPDATE_USER_PARAMS Err Val).
Implicit Types (impl : Impl USER UPDATE_USER_PARAMS Err Val).
Implicit Types (others :
  Store USER UPDATE_USER_PARAMS Err Val → Store USER UPDATE_USER_PARAMS Err Val).
Implicit Types (op : Operation UPDATE_USER_PARAMS Val).
Implicit Types (m : Member USER UPDATE_USER_PARAMS Val).

Local Abbreviation Task := (Async USER UPDATE_USER_PARAMS Err Val).
Local Abbreviation Started := (Susp USER UPDATE_USER_PARAMS Err Val).

(** ** General facts about the wrappers *)

Lemma slot_errorsFactory k : slot k (@errorsFactory Err) = None.
Proof. by destruct k. Qed.

Lemma slot_assign_eq k v (e : CustomUseUserErrors Err) :
  slot k (assign k v e) = v.
Proof. by destruct k. Qed.

Lemma slot_assign_ne k k' v (e : CustomUseUserErrors Err) :
  k ≠ k' → slot k' (assign k v e) = slot k' e.
Proof. by destruct k, k'. Qed.

Lemma assign_None_errorsFactory k :
  assign k None (@errorsFactory Err) = errorsFactory.
Proof. by destruct k. Qed.

(** Every operation reaches its [await], on exactly one call. *)
Lemma every_operation_awaits impl op s :
  ∃ c, awaited impl (run undefined mask op s) = Some (c, reply_of c (impl c)).
Proof. destruct op; eexists; reflexivity. Qed.

(** *** What [catch] and [finally] guarantee, whatever the body does *)

(** A [catch] whose handler completes normally absorbs every failure of the
    body it guards. *)
Lemma catch_absorbs {A} others impl (x : Started A) handler :
  (∀ e, immediate (handler e)) →
  ∃ a, snd (settle_among others impl (susp_catch x handler)) = Resolved a.
Proof.
  intros Hhandler.
  induction x as [s [a|e] | s c k IH]; cbn.
  - by exists a.
  - destruct (Hhandler e s) as (s' & a & ->). by exists a.
  - apply IH.
Qed.

(** A [finally] whose block completes normally does not change how the
    guarded statement completes. *)
Lemma finally_keeps_completion {A} others impl (x : Started A) release :
  immediate release →
  snd (settle_among others impl (susp_finally x release))
  = snd (settle_among others impl x).
Proof.
  intros Hrelease.
  induction x as [s r | s c k IH]; cbn.
  - by destruct (Hrelease s) as (s' & [] & ->).
  - apply IH.
Qed.

(** A [finally] block that writes the loading flag has the last word:
    however the guarded statement completes, and whatever store it resumes
    in, the flag ends with the value written and that write is the last
    event. *)
Lemma finally_writes_loading_last {A} others impl (x : Started A) b :
  loading (fst (settle_among others impl (susp_finally x (write_loading b)))) = b ∧
  last (trace (fst (settle_among others impl
                      (susp_finally x (write_loading b)))))
  = Some (WriteLoading b).
Proof.
  induction x as [s r | s c k IH]; cbn.
  - split; [done | apply last_snoc].
  - apply IH.
Qed.

Lemma write_error_slot_immediate k v :
  immediate (write_error_slot k v : Task ()).
Proof. intros s. by do 2 eexists. Qed.

Lemma write_loading_immediate b : immediate (write_loading b : Task ()).
Proof. intros s. by do 2 eexists. Qed.

Lemma capture_immediate k tag e :
  immediate (write_error_slot k (Some e) ;; log_error tag e : Task ()).
Proof. intros s. by do 2 eexists. Qed.

(** Peels the entry log and the error reset off a wrapper, leaving its
    [try] statement in place. *)
Ltac enter_try :=
  unfold run, updateUser, register, login, logout, changePassword, load,
    updateEmail, try_catch_finally, try_catch;
  unfold mbind at 1 2; unfold async_bind at 1 2;
  cbn [susp_bind log_debug resetErrorValue write_error].

(** The promise of a wrapped operation never rejects, whatever happened to
    the store while it was suspended. *)
Lemma promise_resolves others impl op s :
  snd (settle_among others impl (run undefined mask op s)) = Resolved ().
Proof.
  destruct op; enter_try;
    rewrite ?finally_keeps_completion by apply write_loading_immediate;
    match goal with
    | |- snd (settle_among _ _ (susp_catch ?x ?h)) = _ =>
        destruct (catch_absorbs others impl x h) as [[] ->];
          [intros e; apply capture_immediate | reflexivity]
    end.
Qed.

(** After an invocation that ran alone, the error map is all-null except for
    the operation's own slot, which holds what the implementation threw. *)
Lemma error_after impl op s :
  error (fst (settle impl (run undefined mask op s)))
  = assign (slot_of op) (thrown (awaited impl (run undefined mask op s))) errorsFactory.
Proof. destruct op; exec; by branch impl. Qed.

(** The loading flag is written by every operation but [logout]. *)
Lemma loading_after impl op s :
  loading (fst (settle impl (run undefined mask op s)))
  = match op with op_logout => loading s | _ => false end.
Proof. destruct op; exec; by branch impl. Qed.

(** ** The claims *)

(** C1 (amended).  When the implementation of [login], [load], [updateUser]
    or [changePassword] resolves, the shared user becomes the value it
    returned; when the implementation of [register] resolves, the returned
    value is not assigned and the shared user keeps its value. *)
Theorem success_assigns_returned_user impl op s c v :
  awaited impl (run undefined mask op s) = Some (c, Returned v) →
  user (fst (settle impl (run undefined mask op s)))
  = match op with op_register _ => user s | _ => v end.
Proof.
  intros Hreply.
  destruct op; exec; branch impl; by simplify_eq.
Qed.

(** C2 (amended).  The callable members of the hook are [setUser] and the
    seven wrapped operations.  [setUser] assigns the shared user directly: it
    leaves [loading] and [error] alone and only logs.  Every wrapped
    operation logs, then resets the whole error map, resolves its promise,
    and ends with an error map that is all-null except that its own slot
    holds what the implementation threw; every one but [logout] brackets the
    rest between [loading = true] and [loading = false], while [logout]
    never writes [loading]. *)
Theorem hook_members_mutation impl m s :
  match m with
  | member_setUser newUser =>
      fst (settle impl (call undefined mask m s))
      = mkStore newUser (loading s) (error s)
          (trace s ++ [WriteUser newUser;
                       Logger_debug "useUserFactory.setUser" (PUser newUser)])
  | member_op op =>
      snd (settle impl (call undefined mask m s)) = Resolved () ∧
      error (fst (settle impl (call undefined mask m s)))
      = assign (slot_of op) (thrown (awaited impl (run undefined mask op s))) errorsFactory ∧
      ∃ tag p rest,
        trace (fst (settle impl (call undefined mask m s)))
        = trace s ++ Logger_debug tag p :: WriteError errorsFactory :: rest ∧
        match op with
        | op_logout => ∀ b, WriteLoading b ∉ rest
        | _ => ∃ mid, rest = WriteLoading true :: mid ++ [WriteLoading false]
        end
  end.
Proof.
  destruct m as [newUser|op].
  - exec. by flatten_trace.
  - split; [apply promise_resolves|].
    split; [apply error_after|].
    destruct op; exec; branch impl; flatten_trace;
      do 3 eexists; (split; [reflexivity|]);
      first [ by eexists [_] | by eexists [_; _] | by eexists [_; _; _]
            | absent ].
Qed.

(** C3 (amended).  For every operation other than [logout], and whatever the
    loading flag was before and whatever happened to the store while the
    operation was suspended, the invocation completes with [loading = false],
    and the write that releases the flag is the last thing it does, on the
    success path and on the failure path alike. *)
Theorem loading_released others impl op s :
  op ≠ op_logout →
  loading (fst (settle_among others impl (run undefined mask op s))) = false ∧
  last (trace (fst (settle_among others impl (run undefined mask op s))))
  = Some (WriteLoading false).
Proof.
  intros Hop.
  destruct op; try done; enter_try; apply finally_writes_loading_last.
Qed.

(** C4.  Whatever an implementation throws, the promise of the wrapped
    operation resolves, and the thrown error is found in the operation's
    slot of the error map. *)
Theorem failures_are_absorbed impl op s c e :
  awaited impl (run undefined mask op s) = Some (c, Threw e) →
  snd (settle impl (run undefined mask op s)) = Resolved () ∧
  slot (slot_of op) (error (fst (settle impl (run undefined mask op s)))) = Some e.
Proof.
  intros Hreply. split.
  - apply promise_resolves.
  - rewrite error_after, Hreply. apply slot_assign_eq.
Qed.

(** C5 (amended).  If the implementation throws, then after the invocation
    the operation's slot holds the thrown error and the shared user is what
    it was before the call; [loading] is false for every operation but
    [logout], which leaves it as it found it. *)
Theorem failure_keeps_user impl op s c e :
  awaited impl (run undefined mask op s) = Some (c, Threw e) →
  slot (slot_of op) (error (fst (settle impl (run undefined mask op s)))) = Some e ∧
  user (fst (settle impl (run undefined mask op s))) = user s ∧
  loading (fst (settle impl (run undefined mask op s)))
  = match op with op_logout => loading s | _ => false end.
Proof.
  intros Hreply. repeat split.
  - rewrite error_after, Hreply. apply slot_assign_eq.
  - destruct op; exec; branch impl; by simplify_eq.
  - apply loading_after.
Qed.

(** C6 (amended).  Every invocation of an operation starts, after its entry
    log, by replacing the error map with the all-null map.  A successful
    invocation then writes null to its own slot, so that it ends with every
    slot null; it ends with [loading = false] for every operation but
    [logout], which leaves [loading] as it found it. *)
Theorem reset_then_success impl op s :
  (∃ tag p rest,
     trace (fst (settle impl (run undefined mask op s)))
     = trace s ++ Logger_debug tag p :: WriteError errorsFactory :: rest) ∧
  (∀ k, slot k (@errorsFactory Err) = None) ∧
  ∀ c r,
    awaited impl (run undefined mask op s) = Some (c, r) →
    succeeded r = true →
    WriteErrorSlot (slot_of op) None ∈ trace (fst (settle impl (run undefined mask op s))) ∧
    (∀ k, slot k (error (fst (settle impl (run undefined mask op s)))) = None) ∧
    loading (fst (settle impl (run undefined mask op s)))
    = match op with op_logout => loading s | _ => false end.
Proof.
  split; [|split; [apply slot_errorsFactory|]].
  - destruct op; exec; branch impl; flatten_trace; by do 3 eexists.
  - intros c r Hreply Hok. split; [|split].
    + destruct op; exec; branch impl; simplify_eq; try done;
        rewrite !elem_of_app, !list_elem_of_singleton; tauto.
    + intros k. rewrite error_after, Hreply.
      destruct r; try done; cbn;
        by rewrite assign_None_errorsFactory, slot_errorsFactory.
    + apply loading_after.
Qed.

(** C7.  Whatever the shared user was, a [logout] whose [logOut] resolves
    ends with the shared user null and the [logout] slot null; and no
    [logout], successful or not, ever writes the loading flag. *)
Theorem logout_clears_user impl s :
  (∀ c, awaited impl (logout s) = Some (c, ReturnedVoid) →
        user (fst (settle impl (logout s))) = None ∧
        slot Slot.logout (error (fst (settle impl (logout s)))) = None) ∧
  (∃ evs, trace (fst (settle impl (logout s))) = trace s ++ evs ∧
          ∀ b, WriteLoading b ∉ evs) ∧
  (∀ s1, suspended (logout s) = Some s1 → loading s1 = loading s) ∧
  loading (fst (settle impl (logout s))) = loading s.
Proof.
  repeat split.
  - exec. by branch impl.
  - exec. by branch impl.
  - exec; branch impl; flatten_trace; eexists; (split; [reflexivity|]);
      absent.
  - intros s1 Hs1. exec. by simplify_eq.
  - exec. by branch impl.
Qed.

(** C8.  Whatever the store was, a [register] whose implementation resolves
    leaves the shared user as it was, and leaves the [register] slot null. *)
Theorem register_keeps_user impl p s c v :
  awaited impl (register p s) = Some (c, Returned v) →
  user (fst (settle impl (register p s))) = user s ∧
  slot Slot.register (error (fst (settle impl (register p s)))) = None.
Proof.
  intros Hreply. exec. by branch impl.
Qed.

(** C9 (amended).  An [updateEmail] whose implementation resolves never
    writes the shared user, which is therefore what it was before the call;
    the error map it leaves is the all-null map, every slot having been reset
    at the start; and [loading] is false. *)
Theorem updateEmail_keeps_user impl p s c :
  awaited impl (updateEmail p s) = Some (c, ReturnedVoid) →
  user (fst (settle impl (updateEmail p s))) = user s ∧
  error (fst (settle impl (updateEmail p s))) = errorsFactory ∧
  loading (fst (settle impl (updateEmail p s))) = false ∧
  ∃ evs, trace (fst (settle impl (updateEmail p s))) = trace s ++ evs ∧
         ∀ v, WriteUser v ∉ evs.
Proof.
  intros Hreply. exec. branch impl; simplify_eq.
  repeat split; try done.
  flatten_trace. eexists; split; [reflexivity|]. absent.
Qed.

Lemma agree_except_prop ks (p1 p2 : gmap string Val) k :
  agree_except ks p1 p2 → k ∉ ks → prop undefined p1 k = prop undefined p2 k.
Proof. intros Hagree Hk. unfold prop. by rewrite (Hagree k Hk). Qed.

Lemma agree_except_refl ks (p : gmap string Val) : agree_except ks p p.
Proof. by intros k _. Qed.

Lemma agree_except_insert ks (p1 p2 : gmap string Val) k v1 v2 :
  k ∈ ks →
  agree_except ks p1 p2 →
  agree_except ks (<[k := v1]> p1) (<[k := v2]> p2).
Proof.
  intros Hk Hagree k' Hk'.
  assert (k ≠ k') by (intros ->; contradiction).
  rewrite !lookup_insert_ne by done. by apply Hagree.
Qed.

Lemma agree_except_insert_r ks (p : gmap string Val) k v :
  k ∈ ks → agree_except ks p (<[k := v]> p).
Proof.
  intros Hk k' Hk'.
  assert (k ≠ k') by (intros ->; contradiction).
  by rewrite lookup_insert_ne.
Qed.

(** Closes [k ∉ ks] for explicit, distinct strings. *)
Ltac other_key :=
  let H := fresh "Hin" in
  intros H;
  repeat (apply elem_of_cons in H as [H|H]; [discriminate H|]);
  by apply elem_of_nil in H.

(** C10.  The entry log of [changePassword] is called with
    [mask(params.current)] and [mask(params.new)], while the implementation
    is called with [params.currentPassword] and [params.newPassword].  Hence
    two invocations whose parameters differ only in [currentPassword] and
    [newPassword] make the same entry log call; and the properties [current]
    and [new] are read nowhere else: parameters that differ only there make
    the same implementation call and lead to the same cells and, the entry
    log apart, the same trace. *)
Theorem changePassword_entry_log p1 p2 p3 s :
  agree_except ["currentPassword"; "newPassword"] p1 p2 →
  agree_except ["current"; "new"] p1 p3 →
  entry s (changePassword undefined mask p1 s) = entry s (changePassword undefined mask p2 s) ∧
  entry s (changePassword undefined mask p1 s)
  = Some (Logger_debug "useUserFactory.changePassword"
            (PMasked (mask (prop undefined p1 "current")) (mask (prop undefined p1 "new")))) ∧
  ∀ impl,
    awaited impl (changePassword undefined mask p1 s)
    = Some (call_changePassword (user s) (prop undefined p1 "currentPassword")
              (prop undefined p1 "newPassword") (prop undefined p1 "customQuery"),
            reply_of _ (impl (call_changePassword (user s)
              (prop undefined p1 "currentPassword") (prop undefined p1 "newPassword")
              (prop undefined p1 "customQuery")))) ∧
    awaited impl (changePassword undefined mask p1 s) = awaited impl (changePassword undefined mask p3 s) ∧
    ∃ e1 e3 evs,
      fst (settle impl (changePassword undefined mask p1 s))
      = mkStore (user (fst (settle impl (changePassword undefined mask p3 s))))
                (loading (fst (settle impl (changePassword undefined mask p3 s))))
                (error (fst (settle impl (changePassword undefined mask p3 s))))
                (trace s ++ e1 :: evs) ∧
      trace (fst (settle impl (changePassword undefined mask p3 s))) = trace s ++ e3 :: evs.
Proof.
  intros Hpw Hlog.
  assert (prop undefined p1 "current" = prop undefined p2 "current") as Hcur
    by (apply (agree_except_prop _ _ _ _ Hpw); other_key).
  assert (prop undefined p1 "new" = prop undefined p2 "new") as Hnew
    by (apply (agree_except_prop _ _ _ _ Hpw); other_key).
  assert (prop undefined p1 "currentPassword" = prop undefined p3 "currentPassword") as Hcp
    by (apply (agree_except_prop _ _ _ _ Hlog); other_key).
  assert (prop undefined p1 "newPassword" = prop undefined p3 "newPassword") as Hnp
    by (apply (agree_except_prop _ _ _ _ Hlog); other_key).
  assert (prop undefined p1 "customQuery" = prop undefined p3 "customQuery") as Hcq
    by (apply (agree_except_prop _ _ _ _ Hlog); other_key).
  split; [|split].
  - exec. flatten_trace. by rewrite !list_lookup_middle, Hcur, Hnew.
  - exec. flatten_trace. by rewrite list_lookup_middle.
  - intros impl. split; [reflexivity|]. split.
    + exec. by rewrite Hcp, Hnp, Hcq.
    + exec. rewrite <- Hcp, <- Hnp, <- Hcq.
      branch impl; flatten_trace; by do 3 eexists.
Qed.

End Properties.

(** * The concrete storefront at work *)

Example while_loading_loading : loading while_loading = true.
Proof. reflexivity. Qed.

Example after_failed_login_error :
  slot Slot.login (error after_failed_login) = Some "Invalid credentials" ∧
  user after_failed_login = None ∧
  loading after_failed_login = false.
Proof. by repeat split. Qed.

Example logged_in_cells :
  user logged_in = Some "alice" ∧ loading logged_in = false ∧
  error logged_in = errorsFactory.
Proof. by repeat split. Qed.

Example login_then_logout :
  user (fst (settle (resolving None) (invoke op_logout logged_in))) = None ∧
  loading (fst (settle (resolving None) (invoke op_logout logged_in))) = false.
Proof. by split. Qed.

(** ** Where the stated properties fail *)

(** C1, as stated, fails for [register]: its implementation resolves with a
    user, and the shared user of a fresh hook is still null afterwards. *)
Lemma register_result_not_assigned :
  awaited (resolving (Some "alice")) (invoke (op_register registration) initial)
  = Some (call_register (<["customQuery" := js_undefined]>
                           {["email" := js_string "a@b.com";
                             "password" := js_string "x"]}),
          Returned (Some "alice")) ∧
  user (fst (settle (resolving (Some "alice"))
               (invoke (op_register registration) initial)))
  ≠ Some "alice".
Proof. split; [reflexivity | discriminate]. Qed.

(** C2, as stated, fails for [setUser]: it is a member of the hook that is
    not a wrapped operation, and it changes the shared user without
    resetting the error map, touching the loading flag or capturing
    anything. *)
Lemma setUser_bypasses_wrapping :
  let m := member_setUser (UPDATE_USER_PARAMS := string) (Some "mallory") in
  let s' := fst (settle (resolving None)
                   (call js_undefined mask_stars m after_failed_login)) in
  (∀ op, m ≠ member_op op) ∧
  user s' ≠ user after_failed_login ∧
  error s' = error after_failed_login ∧
  slot Slot.login (error s') = Some "Invalid credentials" ∧
  (∀ e, WriteError e ∉ drop (length (trace after_failed_login)) (trace s')) ∧
  (∀ b, WriteLoading b ∉ drop (length (trace after_failed_login)) (trace s')).
Proof.
  cbn zeta. repeat split; try done.
  - intros e Hin. vm_compute in Hin.
    repeat (apply elem_of_cons in Hin as [Hin|Hin]; [discriminate Hin|]).
    by apply elem_of_nil in Hin.
  - intros b Hin. vm_compute in Hin.
    repeat (apply elem_of_cons in Hin as [Hin|Hin]; [discriminate Hin|]).
    by apply elem_of_nil in Hin.
Qed.

(** C3, as stated, fails for [logout]: invoked while [load] is in flight, so
    that the loading flag is true, it completes with the flag still true. *)
Lemma logout_leaves_loading_set :
  suspended (invoke (op_load None) initial) = Some while_loading ∧
  loading while_loading = true ∧
  snd (settle (resolving None) (invoke op_logout while_loading)) = Resolved () ∧
  loading (fst (settle (resolving None) (invoke op_logout while_loading)))
  ≠ false.
Proof. repeat split; discriminate. Qed.

(** C5, as stated, fails for [logout]: invoked while a [load] is in flight
    and [logOut] throws, the error is captured and the user kept, but the
    loading flag is still true afterwards. *)
Lemma failed_logout_leaves_loading_set :
  suspended (invoke (op_load None) logged_in) = Some while_reloading ∧
  loading while_reloading = true ∧
  awaited (throwing "offline") (invoke op_logout while_reloading)
  = Some (call_logOut (Some "alice"), Threw "offline") ∧
  slot Slot.logout
    (error (fst (settle (throwing "offline") (invoke op_logout while_reloading))))
  = Some "offline" ∧
  user (fst (settle (throwing "offline") (invoke op_logout while_reloading)))
  = user while_reloading ∧
  loading (fst (settle (throwing "offline") (invoke op_logout while_reloading)))
  ≠ false.
Proof. repeat split; discriminate. Qed.

(** C6, as stated, fails for [logout]: a successful [logout] invoked while
    an [updateEmail] is in flight resets the error map and clears the user,
    but ends with the loading flag true. *)
Lemma successful_logout_leaves_loading_set :
  suspended (invoke (op_updateEmail new_email) logged_in)
  = Some while_updating_email ∧
  loading while_updating_email = true ∧
  awaited (resolving None) (invoke op_logout while_updating_email)
  = Some (call_logOut (Some "alice"), ReturnedVoid) ∧
  succeeded (ReturnedVoid (USER := string) (Err := string)) = true ∧
  error (fst (settle (resolving None) (invoke op_logout while_updating_email)))
  = errorsFactory ∧
  loading (fst (settle (resolving None) (invoke op_logout while_updating_email)))
  ≠ false.
Proof. repeat split; discriminate. Qed.

(** C9, as stated, fails on the other slots of the error map: after a failed
    [login], a successful [updateEmail] changes the [login] slot as well. *)
Lemma updateEmail_clears_other_slots :
  awaited (resolving None) (invoke (op_updateEmail new_email) after_failed_login)
  = Some (call_updateEmail None "c@d.com" js_undefined, ReturnedVoid) ∧
  Slot.login ≠ Slot.updateEmail ∧
  slot Slot.login (error after_failed_login) = Some "Invalid credentials" ∧
  slot Slot.login
    (error (fst (settle (resolving None)
                   (invoke (op_updateEmail new_email) after_failed_login))))
  ≠ slot Slot.login (error after_failed_login).
Proof. repeat split; discriminate. Qed.

(** ** The properties at work *)

(** A [login] that resolves with a user, on a fresh hook. *)
Lemma success_assigns_returned_user_login :
  awaited (resolving (Some "alice")) (invoke (op_login credentials) initial)
  = Some (call_logIn (<["customQuery" := js_undefined]>
                        {["username" := js_string "a@b.com";
                          "password" := js_string "x"]}),
          Returned (Some "alice")) ∧
  user (fst (settle (resolving (Some "alice"))
               (invoke (op_login credentials) initial)))
  = Some "alice".
Proof.
  split; [reflexivity|].
  apply (success_assigns_returned_user js_undefined mask_stars
           (resolving (Some "alice")) (op_login credentials) initial
           (call_logIn (spread_with_customQuery credentials))
           (Some "alice")).
  reflexivity.
Defined.

(** A [load] that fails, resumed in a store where another operation has
    set the loading flag in the meantime. *)
Lemma loading_released_load :
  op_load (UPDATE_USER_PARAMS := string) (Val := JsValue) None ≠ op_logout ∧
  loading (fst (settle_among
                  (λ s, mkStore (user s) true (error s) (trace s))
                  (throwing "offline")
                  (invoke (op_load None) while_loading))) = false ∧
  last (trace (fst (settle_among
                      (λ s, mkStore (user s) true (error s) (trace s))
                      (throwing "offline")
                      (invoke (op_load None) while_loading))))
  = Some (WriteLoading false).
Proof.
  split; [discriminate|].
  apply (loading_released js_undefined mask_stars).
  discriminate.
Defined.

(** A [login] rejected with "Invalid credentials", on a fresh hook. *)
Lemma failures_are_absorbed_login :
  awaited (throwing "Invalid credentials") (invoke (op_login credentials) initial)
  = Some (call_logIn (<["customQuery" := js_undefined]>
                        {["username" := js_string "a@b.com";
                          "password" := js_string "x"]}),
          Threw "Invalid credentials") ∧
  snd (settle (throwing "Invalid credentials")
         (invoke (op_login credentials) initial)) = Resolved () ∧
  slot Slot.login
    (error (fst (settle (throwing "Invalid credentials")
                   (invoke (op_login credentials) initial))))
  = Some "Invalid credentials".
Proof.
  split; [reflexivity|].
  apply (failures_are_absorbed js_undefined mask_stars
           (throwing "Invalid credentials") (op_login credentials) initial
           (call_logIn (spread_with_customQuery credentials))
           "Invalid credentials").
  reflexivity.
Defined.

(** A [changePassword] that fails for a logged-in user. *)
Lemma failure_keeps_user_changePassword :
  let s := mkStore (Some "alice") false errorsFactory [] in
  let params : gmap string JsValue :=
    {["currentPassword" := js_string "x"; "newPassword" := js_string "y"]} in
  awaited (throwing "Wrong password") (invoke (op_changePassword params) s)
  = Some (call_changePassword (Some "alice") (js_string "x") (js_string "y")
            js_undefined,
          Threw "Wrong password") ∧
  slot Slot.changePassword
    (error (fst (settle (throwing "Wrong password")
                   (invoke (op_changePassword params) s))))
  = Some "Wrong password" ∧
  user (fst (settle (throwing "Wrong password")
               (invoke (op_changePassword params) s))) = Some "alice" ∧
  loading (fst (settle (throwing "Wrong password")
                  (invoke (op_changePassword params) s))) = false.
Proof.
  intros s params.
  split; [reflexivity|].
  apply (failure_keeps_user js_undefined mask_stars
           (throwing "Wrong password") (op_changePassword params) s
           (call_changePassword (Some "alice") (js_string "x") (js_string "y")
              js_undefined)
           "Wrong password").
  reflexivity.
Defined.

(** A [load] that succeeds after a failed [login]. *)
Lemma reset_then_success_load :
  let s' := fst (settle (resolving (Some "alice"))
                   (invoke (op_load None) after_failed_login)) in
  awaited (resolving (Some "alice")) (invoke (op_load None) after_failed_login)
  = Some (call_load js_undefined, Returned (Some "alice")) ∧
  succeeded (Returned (USER := string) (Err := string) (Some "alice")) = true ∧
  WriteErrorSlot Slot.load None ∈ trace s' ∧
  (∀ k, slot k (error s') = None) ∧
  loading s' = false.
Proof.
  intros s'.
  split; [reflexivity|]. split; [reflexivity|].
  destruct (reset_then_success js_undefined mask_stars
              (resolving (Some "alice")) (op_load None) after_failed_login)
    as (_ & _ & Hsuccess).
  apply (Hsuccess (call_load js_undefined) (Returned (Some "alice")));
    reflexivity.
Defined.

(** A [logout] that succeeds for a logged-in user. *)
Lemma logout_clears_user_alice :
  let s := mkStore (Some "alice") false errorsFactory [] in
  awaited (resolving None) (logout s)
  = Some (call_logOut (UPDATE_USER_PARAMS := string) (Val := JsValue)
            (Some "alice"), ReturnedVoid) ∧
  user (fst (settle (resolving None) (logout s))) = None ∧
  slot Slot.logout (error (fst (settle (resolving None) (logout s)))) = None.
Proof.
  intros s.
  split; [reflexivity|].
  destruct (logout_clears_user (resolving None) s) as [Hsuccess _].
  apply (Hsuccess (call_logOut (Some "alice"))).
  reflexivity.
Defined.

(** A [register] that resolves with another user while one is logged in. *)
Lemma register_keeps_user_alice :
  let s := mkStore (Some "alice") false errorsFactory [] in
  awaited (resolving (Some "bob")) (register registration s)
  = Some (call_register (spread_with_customQuery registration),
          Returned (Some "bob")) ∧
  user (fst (settle (resolving (Some "bob")) (register registration s)))
  = Some "alice" ∧
  slot Slot.register
    (error (fst (settle (resolving (Some "bob")) (register registration s))))
  = None.
Proof.
  intros s.
  split; [reflexivity|].
  apply (register_keeps_user (resolving (Some "bob")) registration s
           (call_register (spread_with_customQuery registration))
           (Some "bob")).
  reflexivity.
Defined.

(** An [updateEmail] that succeeds for a logged-in user with a stale
    [login] error. *)
Lemma updateEmail_keeps_user_alice :
  let s := mkStore (Some "alice") false
             (assign Slot.login (Some "Invalid credentials") errorsFactory) [] in
  awaited (resolving None) (updateEmail new_email s)
  = Some (call_updateEmail (Some "alice") "c@d.com" js_undefined, ReturnedVoid) ∧
  user (fst (settle (resolving None) (updateEmail new_email s))) = Some "alice" ∧
  error (fst (settle (resolving None) (updateEmail new_email s))) = errorsFactory ∧
  loading (fst (settle (resolving None) (updateEmail new_email s))) = false ∧
  ∃ evs, trace (fst (settle (resolving None) (updateEmail new_email s)))
         = [] ++ evs ∧
         ∀ v, WriteUser v ∉ evs.
Proof.
  intros s.
  split; [reflexivity|].
  apply (updateEmail_keeps_user (resolving None) new_email s
           (call_updateEmail (Some "alice") "c@d.com" js_undefined)).
  reflexivity.
Defined.

(** The entry log of two requests with different passwords. *)
Lemma changePassword_entry_log_requests :
  let s := mkStore (Some "alice") false errorsFactory [] in
  agree_except ["currentPassword"; "newPassword"]
    (request "hunter2" "tr0ub4dor") (request "12345" "swordfish") ∧
  agree_except ["current"; "new"]
    (request "hunter2" "tr0ub4dor") request_with_logged_fields ∧
  entry s (changePassword js_undefined mask_stars (request "hunter2" "tr0ub4dor") s)
  = entry s (changePassword js_undefined mask_stars (request "12345" "swordfish") s) ∧
  entry s (changePassword js_undefined mask_stars (request "hunter2" "tr0ub4dor") s)
  = Some (Logger_debug "useUserFactory.changePassword"
            (PMasked js_undefined js_undefined)) ∧
  awaited (resolving (Some "alice"))
    (changePassword js_undefined mask_stars (request "hunter2" "tr0ub4dor") s)
  = Some (call_changePassword (Some "alice") (js_string "hunter2")
            (js_string "tr0ub4dor") js_undefined,
          Returned (Some "alice")) ∧
  awaited (resolving (Some "alice"))
    (changePassword js_undefined mask_stars (request "hunter2" "tr0ub4dor") s)
  = awaited (resolving (Some "alice"))
      (changePassword js_undefined mask_stars request_with_logged_fields s).
Proof.
  intros s.
  assert (agree_except ["currentPassword"; "newPassword"]
            (request "hunter2" "tr0ub4dor") (request "12345" "swordfish"))
    as Hpasswords.
  { unfold request.
    apply agree_except_insert; [by repeat constructor|].
    apply agree_except_insert; [by repeat constructor|].
    apply agree_except_refl. }
  assert (agree_except ["current"; "new"]
            (request "hunter2" "tr0ub4dor") request_with_logged_fields)
    as Hlogged.
  { unfold request_with_logged_fields. intros k Hk.
    rewrite !lookup_insert_ne; [done|..];
      intros <-; apply Hk; by repeat constructor. }
  split; [exact Hpasswords|]. split; [exact Hlogged|].
  destruct (changePassword_entry_log js_undefined mask_stars
              (request "hunter2" "tr0ub4dor") (request "12345" "swordfish")
              request_with_logged_fields s Hpasswords Hlogged)
    as (Hsame & Hentry & Hrest).
  destruct (Hrest (resolving (Some "alice"))) as (Hcall & Hread & _).
  split; [exact Hsame|]. split; [exact Hentry|].
  split; [exact Hcall | exact Hread].
Defined.

(** * Further properties of the hook *)

Section Further.

Context {USER UPDATE_USER_PARAMS Err Val : Type}.
Variable undefined : Val.
Variable mask : Val → Val.
Variable Boolean : USER → bool.

Implicit Types (s : Store USER UPDATE_USER_PARAMS Err Val).
Implicit Types (impl : Impl USER UPDATE_USER_PARAMS Err Val).
Implicit Types (op : Operation UPDATE_USER_PARAMS Val).

(** What an operation leaves in the cells when it resumes in a store that
    other code changed while it was waiting. *)
Lemma error_resumed others impl op s :
  error (fst (settle_among others impl (run undefined mask op s)))
  = assign (slot_of op) (thrown (awaited impl (run undefined mask op s)))
      (error (others (in_flight undefined mask op s))).
Proof.
  destruct op; unfold in_flight; exec; branch impl;
    by destruct (error (others _)).
Qed.

Lemma emitted_app s s' evs : trace s' = trace s ++ evs → emitted s s' = evs.
Proof. intros Htrace. unfold emitted. by rewrite Htrace, drop_app_length. Qed.

(** X1.  Members called one after the other, each running alone until it
    settles, leave the loading flag false if it was false to begin with:
    [logout], which never releases the flag, never finds it set. *)
Theorem sequential_calls_release_loading calls s :
  loading s = false →
  loading (run_sequence undefined mask calls s) = false.
Proof.
  revert s.
  induction calls as [|[impl m] calls IH]; intros s Hs; [exact Hs|].
  cbn [run_sequence]. apply IH.
  destruct m as [newUser|op].
  - exact Hs.
  - cbn [call]. rewrite loading_after. by destruct op.
Qed.

(** X2.  While an operation waits for its implementation, the shared user is
    still the one it found, the error map is already all-null, and the
    loading flag is true, except for [logout], which leaves the flag as it
    found it. *)
Theorem in_flight_view op s :
  suspended (run undefined mask op s) = Some (in_flight undefined mask op s) ∧
  user (in_flight undefined mask op s) = user s ∧
  error (in_flight undefined mask op s) = errorsFactory ∧
  loading (in_flight undefined mask op s)
  = match op with op_logout => loading s | _ => true end.
Proof. by destruct op. Qed.

(** X3.  No error of another operation survives an invocation: whether the
    invoked operation succeeds or fails, every slot but its own is null
    afterwards. *)
Theorem stale_errors_cleared impl op s k :
  k ≠ slot_of op →
  slot k (error (completed undefined mask impl op s)) = None.
Proof.
  intros Hk. unfold completed.
  rewrite error_after, slot_assign_ne by done.
  apply slot_errorsFactory.
Qed.

(** X4.  An invocation calls its implementation exactly once.  [updateUser],
    [logout], [changePassword] and [updateEmail] pass it, as [currentUser],
    the shared user found when the operation was invoked; [load], [register]
    and [login] pass no current user. *)
Theorem one_implementation_call impl op s :
  ∃ c,
    awaited impl (run undefined mask op s) = Some (c, reply_of c (impl c)) ∧
    invocations (emitted s (completed undefined mask impl op s)) = [c] ∧
    currentUser_of c
    = match op with
      | op_updateUser _ | op_logout | op_changePassword _ | op_updateEmail _ =>
          Some (user s)
      | _ => None
      end.
Proof.
  destruct op; eexists; (split; [reflexivity|]); (split; [|reflexivity]);
    unfold completed; exec; branch impl;
    by erewrite emitted_app by (cbn; flatten_trace; reflexivity).
Qed.

(** X5.  An invocation logs at debug level exactly once, before anything
    else; it logs at error level exactly when its implementation threw, once,
    with the error that was thrown. *)
Theorem failure_is_logged_once impl op s :
  (∃ tag p,
     head (emitted s (completed undefined mask impl op s))
     = Some (Logger_debug tag p) ∧
     debug_logged (emitted s (completed undefined mask impl op s)) = [tag]) ∧
  errors_logged (emitted s (completed undefined mask impl op s))
  = match thrown (awaited impl (run undefined mask op s)) with
    | Some e => [e]
    | None => []
    end.
Proof.
  destruct op; unfold completed; exec; branch impl;
    (erewrite emitted_app by (cbn; flatten_trace; reflexivity));
    (split; [by do 2 eexists | reflexivity]).
Qed.

(** X6.  [login] and [register] call their implementation with the spread of
    [providedUser] and [customQuery]: the [customQuery] argument wins over a
    [customQuery] property of [providedUser], and every other property is
    the one of [providedUser]. *)
Theorem spread_customQuery_wins impl (p : UserParams Val (gmap string Val)) s :
  awaited impl (login p s)
  = Some (call_logIn (spread_with_customQuery p),
          reply_of _ (impl (call_logIn (spread_with_customQuery p)))) ∧
  awaited impl (register p s)
  = Some (call_register (spread_with_customQuery p),
          reply_of _ (impl (call_register (spread_with_customQuery p)))) ∧
  ∀ k, prop undefined (spread_with_customQuery p) k
       = if decide (k = "customQuery") then customQuery p
         else prop undefined (providedUser p) k.
Proof.
  split; [reflexivity|]. split; [reflexivity|].
  intros k. unfold prop, spread_with_customQuery.
  rewrite lookup_insert.
  destruct (decide (k = "customQuery")) as [->|Hk].
  - by rewrite decide_True.
  - by rewrite decide_False.
Qed.

(** X7.  [load] called without an argument, or with an object that has no
    [customQuery] property, calls its implementation with [customQuery]
    undefined; otherwise it passes the [customQuery] of its argument. *)
Theorem load_passes_customQuery impl (arg : option (gmap string Val)) s :
  ∃ r,
    awaited impl (load undefined arg s)
    = Some (call_load match arg with
                      | Some o => default undefined (o !! "customQuery")
                      | None => undefined
                      end, r).
Proof.
  destruct arg as [o|]; eexists; unfold load, prop; cbn.
  - reflexivity.
  - by rewrite lookup_singleton_eq.
Qed.

(** X8.  When an operation is invoked and settles while another one waits,
    the errors of both end up in the error map: the one that resumes last
    only writes its own slot, into the map the other one left. *)
Theorem overlap_keeps_both_errors impl_outer outer impl_inner inner s :
  error (overlap undefined mask impl_outer outer impl_inner inner s)
  = assign (slot_of outer)
      (thrown (awaited impl_outer (run undefined mask outer s)))
      (assign (slot_of inner)
         (thrown (awaited impl_inner
                    (run undefined mask inner (in_flight undefined mask outer s))))
         errorsFactory).
Proof.
  unfold overlap. rewrite error_resumed.
  unfold completed. by rewrite error_after.
Qed.

(** X9.  When an operation other than [logout] is invoked and settles while
    another one waits, the loading flag, true while the first one waits, is
    false as soon as the second one settles, although the first one is still
    waiting. *)
Theorem overlap_releases_loading_early impl_inner outer inner s :
  outer ≠ op_logout →
  inner ≠ op_logout →
  loading (in_flight undefined mask outer s) = true ∧
  loading (completed undefined mask impl_inner inner
             (in_flight undefined mask outer s)) = false.
Proof.
  intros Houter Hinner. split.
  - by destruct outer.
  - unfold completed. rewrite loading_after. by destruct inner.
Qed.

(** X10.  When two invocations overlap, the one that resumes last decides the
    shared user: if it is a [login], [load], [updateUser] or [changePassword]
    whose implementation resolved, the user is what that implementation
    returned; if it is a [logout] that succeeded, the user is null; in every
    other case the user is the one the other invocation left. *)
Theorem overlap_last_writer_wins impl_outer outer impl_inner inner s c r :
  awaited impl_outer (run undefined mask outer s) = Some (c, r) →
  user (overlap undefined mask impl_outer outer impl_inner inner s)
  = match r with
    | Returned v =>
        match outer with
        | op_register _ =>
            user (completed undefined mask impl_inner inner
                    (in_flight undefined mask outer s))
        | _ => v
        end
    | ReturnedVoid =>
        match outer with
        | op_logout => None
        | _ => user (completed undefined mask impl_inner inner
                       (in_flight undefined mask outer s))
        end
    | Threw _ => user (completed undefined mask impl_inner inner
                         (in_flight undefined mask outer s))
    end.
Proof.
  intros Hreply.
  destruct outer; unfold overlap, in_flight; exec; branch impl_outer;
    by simplify_eq.
Qed.

(** X11.  [isAuthenticated] after an invocation that ran alone: a failed
    operation leaves it as it was; a successful [logout] makes it false; a
    successful [login], [load], [updateUser] or [changePassword] makes it the
    truthiness of the returned user; a successful [register] or [updateEmail]
    leaves it as it was. *)
Theorem authentication_after impl op s c r :
  awaited impl (run undefined mask op s) = Some (c, r) →
  isAuthenticated Boolean (completed undefined mask impl op s)
  = match r with
    | Returned v =>
        match op with
        | op_register _ => isAuthenticated Boolean s
        | _ => from_option Boolean false v
        end
    | ReturnedVoid =>
        match op with
        | op_logout => false
        | _ => isAuthenticated Boolean s
        end
    | Threw _ => isAuthenticated Boolean s
    end.
Proof.
  intros Hreply. unfold isAuthenticated, completed.
  destruct op; exec; branch impl; simplify_eq; cbn; try done;
    by match goal with |- context [match ?v with _ => _ end] => destruct v end.
Qed.

(** X12.  The entry log of [login] and of [register] carries [providedUser]
    as it is: two invocations that make the same entry log call were given
    the same [providedUser], password included. *)
Theorem credentials_reach_the_log (p1 p2 : UserParams Val (gmap string Val)) s :
  entry s (login p1 s) = entry s (login p2 s)
  ∨ entry s (register p1 s) = entry s (register p2 s) →
  providedUser p1 = providedUser p2.
Proof.
  intros [Hentry|Hentry]; exec;
    revert Hentry; flatten_trace; rewrite !list_lookup_middle by done;
    intros Hentry; by simplify_eq.
Qed.

Lemma single_error_assign k v :
  single_error (assign k v (@errorsFactory Err)).
Proof.
  intros k1 k2 [e1 H1] [e2 H2].
  destruct k, k1; try discriminate H1; destruct k2; try discriminate H2;
    reflexivity.
Qed.

(** X17.  As long as calls on the hook do not overlap, the error map never
    holds two errors at once: if at most one slot is non-null before a
    sequence of calls, each running alone until it settles, at most one slot
    is non-null after it. *)
Theorem sequential_calls_single_error calls s :
  single_error (error s) →
  single_error (error (run_sequence undefined mask calls s)).
Proof.
  revert s.
  induction calls as [|[impl m] calls IH]; intros s Hs; [exact Hs|].
  cbn [run_sequence]. apply IH.
  destruct m as [newUser|op].
  - exact Hs.
  - cbn [call]. rewrite error_after. apply single_error_assign.
Qed.

End Further.

(** * Properties of the checkout shipping page *)

Section ShippingFacts.

Context {Val Err OrderAddress Address UserShipping : Type}.
Variables undefined empty_string null : Val.
Variable mapAddressFormToOrderAddress : Shipping.AddressForm Val → OrderAddress.
Variable getDefaultAddress : UserShipping → string → Address.
Variable mapAddressToAddressForm : Address → gmap string Val.

Implicit Types (w : Shipping.Page Val UserShipping).
Implicit Types (others : Shipping.Page Val UserShipping → Shipping.Page Val UserShipping).
Implicit Types (env : Shipping.Call OrderAddress → Outcome Err ()).

Local Abbreviation handleFormSubmit :=
  (Shipping.handleFormSubmit (Err := Err) mapAddressFormToOrderAddress).
Local Abbreviation onMounted_callback :=
  (Shipping.onMounted_callback (Err := Err) (OrderAddress := OrderAddress)
     undefined getDefaultAddress mapAddressToAddressForm).
Local Abbreviation turn :=
  (Shipping.turn (Err := Err) undefined mapAddressFormToOrderAddress
     getDefaultAddress mapAddressToAddressForm).
Local Abbreviation reachable :=
  (Shipping.reachable (Err := Err) undefined empty_string null
     mapAddressFormToOrderAddress getDefaultAddress mapAddressToAddressForm).

(** No turn takes back [isFormSubmitted] or [shouldDisplayButton]. *)
Lemma turn_keeps_flags w w' :
  turn w w' →
  (Shipping.isFormSubmitted w = true → Shipping.isFormSubmitted w' = true) ∧
  (Shipping.shouldDisplayButton w = true →
   Shipping.shouldDisplayButton w' = true).
Proof.
  intros Hturn.
  destruct Hturn as [w0 [[]|e] w | w Hshown | w0 [[]|e] w | f w | l lsp us w];
    cbn; by split.
Qed.

(** The billing button is asked for only after the form was submitted. *)
Lemma button_after_submission w :
  reachable w →
  Shipping.shouldDisplayButton w = true → Shipping.isFormSubmitted w = true.
Proof.
  induction 1 as [l lsp us | w w' Hreach IH Hturn]; [done|].
  destruct Hturn as [w0 [[]|e] w | w Hshown | w0 [[]|e] w | f w | l lsp us w];
    cbn; auto.
Qed.

(** X13.  [handleFormSubmit] saves the order address mapped from the form as
    it is when the form is submitted.  If [save] resolves, the handler
    resolves and from then on the shipping provider is rendered instead of
    the submit button; the form and [shouldDisplayButton] are left as found.
    If [save] rejects, nothing is caught: the promise of the handler rejects
    with the same error and the page is left exactly as found. *)
Theorem submit_outcome others env w :
  Shipping.awaiting (handleFormSubmit w)
  = Some (Shipping.call_save (mapAddressFormToOrderAddress (Shipping.form w))) ∧
  match env (Shipping.call_save (mapAddressFormToOrderAddress (Shipping.form w))) with
  | Resolved _ =>
      snd (Shipping.settle_among others env (handleFormSubmit w)) = Resolved () ∧
      Shipping.shows_shipping_provider
        (fst (Shipping.settle_among others env (handleFormSubmit w))) = true ∧
      Shipping.shows_submit_button
        (fst (Shipping.settle_among others env (handleFormSubmit w))) = false ∧
      Shipping.form (fst (Shipping.settle_among others env (handleFormSubmit w)))
      = Shipping.form (others w) ∧
      Shipping.shouldDisplayButton
        (fst (Shipping.settle_among others env (handleFormSubmit w)))
      = Shipping.shouldDisplayButton (others w)
  | Rejected e =>
      Shipping.settle_among others env (handleFormSubmit w)
      = (others w, Rejected e)
  end.
Proof.
  split; [reflexivity|]. cbn.
  by destruct (env _) as [[]|e].
Qed.

(** X14.  In every page the component can be in, when the "Continue to
    billing" button is rendered the shipping provider is rendered too and
    the submit button is not, and the button is disabled exactly while the
    shipping provider is loading. *)
Theorem continue_button_shown w :
  reachable w →
  Shipping.shows_continue_button w = true →
  Shipping.shows_shipping_provider w = true ∧
  Shipping.shows_submit_button w = false ∧
  Shipping.continue_button_disabled w = Shipping.loadingShippingProvider w.
Proof.
  intros Hreach Hshown.
  pose proof (button_after_submission w Hreach Hshown) as Hsubmitted.
  unfold Shipping.shows_continue_button in Hshown.
  unfold Shipping.shows_shipping_provider, Shipping.shows_submit_button,
    Shipping.continue_button_disabled.
  by rewrite Hsubmitted, Hshown.
Qed.

(** X15.  Whatever happens on the page, [isFormSubmitted] and
    [shouldDisplayButton] never go back to false: once rendered, the
    shipping provider and the "Continue to billing" button stay. *)
Theorem flags_never_reset w w' :
  rtc turn w w' →
  (Shipping.isFormSubmitted w = true → Shipping.isFormSubmitted w' = true) ∧
  (Shipping.shouldDisplayButton w = true →
   Shipping.shouldDisplayButton w' = true).
Proof.
  induction 1 as [w | w w1 w' Hturn _ [IHs IHb]]; [done|].
  destruct (turn_keeps_flags _ _ Hturn) as [Hs Hb]. auto.
Qed.

(** X16.  When [loadUserShipping] resolves, the [onMounted] callback replaces
    the whole form by the default shipping address of the user as it is at
    that moment: whatever the form contained, edits made while loading
    included, is lost, and [apartment] receives [streetNumber].  When it
    rejects, the callback rejects and the page is left as found. *)
Theorem mounted_form others1 others2 env w1 w2 :
  Shipping.userShipping (others1 w1) = Shipping.userShipping (others2 w2) →
  match env Shipping.call_loadUserShipping with
  | Resolved _ =>
      Shipping.form
        (fst (Shipping.settle_among others1 env (onMounted_callback w1)))
      = Shipping.form
          (fst (Shipping.settle_among others2 env (onMounted_callback w2))) ∧
      Shipping.apartment
        (Shipping.form
           (fst (Shipping.settle_among others1 env (onMounted_callback w1))))
      = prop undefined
          (mapAddressToAddressForm
             (getDefaultAddress (Shipping.userShipping (others1 w1)) "shipping"))
          "streetNumber"
  | Rejected e =>
      Shipping.settle_among others1 env (onMounted_callback w1)
      = (others1 w1, Rejected e)
  end.
Proof.
  intros Hsame. cbn.
  destruct (env _) as [[]|e]; cbn; [|done].
  by rewrite Hsame.
Qed.

End ShippingFacts.

(** * The further properties at work *)

(** A session of six calls on a fresh hook. *)
Lemma sequential_calls_release_loading_session :
  loading (initial (USER := string) (UPDATE_USER_PARAMS := string)
             (Err := string) (Val := JsValue)) = false ∧
  loading (run_sequence js_undefined mask_stars session initial) = false.
Proof.
  split; [reflexivity|].
  apply (sequential_calls_release_loading js_undefined mask_stars session
           initial).
  reflexivity.
Defined.

(** The error of a failed [login] after an [updateEmail] that fails. *)
Lemma stale_errors_cleared_login :
  Slot.login ≠ slot_of (op_updateEmail new_email) ∧
  slot Slot.login (error after_failed_login) = Some "Invalid credentials" ∧
  slot Slot.login
    (error (completed js_undefined mask_stars (throwing "offline")
              (op_updateEmail new_email) after_failed_login)) = None.
Proof.
  split; [discriminate|]. split; [reflexivity|].
  apply (stale_errors_cleared js_undefined mask_stars (throwing "offline")
           (op_updateEmail new_email) after_failed_login Slot.login).
  discriminate.
Defined.

(** A [changePassword] that settles while a [load] waits. *)
Lemma overlap_releases_loading_early_load :
  op_load (UPDATE_USER_PARAMS := string) (Val := JsValue) None ≠ op_logout ∧
  op_changePassword (UPDATE_USER_PARAMS := string)
    (request "hunter2" "tr0ub4dor") ≠ op_logout ∧
  loading (in_flight js_undefined mask_stars (op_load None) logged_in) = true ∧
  loading (completed js_undefined mask_stars (resolving (Some "alice"))
             (op_changePassword (request "hunter2" "tr0ub4dor"))
             (in_flight js_undefined mask_stars (op_load None) logged_in))
  = false.
Proof.
  split; [discriminate|]. split; [discriminate|].
  apply (overlap_releases_loading_early js_undefined mask_stars
           (resolving (Some "alice")) (op_load None)
           (op_changePassword (request "hunter2" "tr0ub4dor")) logged_in);
    discriminate.
Defined.

(** A [load] that resolves with a user after a [logout] settled while it was
    waiting. *)
Lemma overlap_last_writer_wins_load :
  awaited (resolving (Some "alice")) (invoke (op_load None) logged_in)
  = Some (call_load js_undefined, Returned (Some "alice")) ∧
  user (completed js_undefined mask_stars (resolving None) op_logout
          (in_flight js_undefined mask_stars (op_load None) logged_in)) = None ∧
  user (overlap js_undefined mask_stars (resolving (Some "alice"))
          (op_load None) (resolving None) op_logout logged_in)
  = Some "alice".
Proof.
  split; [reflexivity|]. split; [reflexivity|].
  apply (overlap_last_writer_wins js_undefined mask_stars
           (resolving (Some "alice")) (op_load None) (resolving None)
           op_logout logged_in (call_load js_undefined)
           (Returned (Some "alice"))).
  reflexivity.
Defined.

(** A [logout] that succeeds for a logged-in user, every user being truthy. *)
Lemma authentication_after_logout :
  awaited (resolving None) (invoke op_logout logged_in)
  = Some (call_logOut (Some "alice"), ReturnedVoid) ∧
  isAuthenticated (λ _, true) logged_in = true ∧
  isAuthenticated (λ _, true)
    (completed js_undefined mask_stars (resolving None) op_logout logged_in)
  = false.
Proof.
  split; [reflexivity|]. split; [reflexivity|].
  apply (authentication_after js_undefined mask_stars (λ _, true)
           (resolving None) op_logout logged_in
           (call_logOut (Some "alice")) ReturnedVoid).
  reflexivity.
Defined.

(** Two [login] invocations with the same credentials. *)
Lemma credentials_reach_the_log_login :
  entry (initial (USER := string) (UPDATE_USER_PARAMS := string)
           (Err := string)) (login credentials initial)
  = entry initial (login credentials initial) ∧
  providedUser credentials = providedUser credentials.
Proof.
  split; [reflexivity|].
  apply (credentials_reach_the_log (USER := string)
           (UPDATE_USER_PARAMS := string) (Err := string)
           credentials credentials initial).
  left. reflexivity.
Defined.

Lemma page_method_selected_reachable : page_reachable page_method_selected.
Proof.
  eapply Shipping.reachable_turn.
  - eapply Shipping.reachable_turn.
    + apply (Shipping.reachable_setup _ _ _ _ _ _ _ _ _ _ _ false false []).
    + apply (Shipping.turn_submitted _ _ _ _ _ _ _ _ _ fresh_page (Resolved ())
               fresh_page).
  - apply Shipping.turn_method_selected. reflexivity.
Defined.

(** The page after the form was saved and a shipping method selected. *)
Lemma continue_button_shown_after_selection :
  page_reachable page_method_selected ∧
  Shipping.shows_continue_button page_method_selected = true ∧
  Shipping.shows_shipping_provider page_method_selected = true ∧
  Shipping.shows_submit_button page_method_selected = false ∧
  Shipping.continue_button_disabled page_method_selected = false.
Proof.
  split; [exact page_method_selected_reachable|]. split; [reflexivity|].
  apply (continue_button_shown (Err := string) js_undefined (js_string "")
           js_undefined (λ f : Shipping.AddressForm JsValue, f) first_address
           (λ a, a) page_method_selected page_method_selected_reachable).
  reflexivity.
Defined.

(** From the submitted page to the page where a method was selected. *)
Lemma flags_never_reset_after_selection :
  rtc page_turn page_submitted page_method_selected ∧
  Shipping.isFormSubmitted page_submitted = true ∧
  Shipping.isFormSubmitted page_method_selected = true.
Proof.
  assert (rtc page_turn page_submitted page_method_selected) as Hturns.
  { apply rtc_once. apply Shipping.turn_method_selected. reflexivity. }
  split; [exact Hturns|]. split; [reflexivity|].
  destruct (flags_never_reset (Err := string) js_undefined
              (λ f : Shipping.AddressForm JsValue, f) first_address (λ a, a)
              page_submitted page_method_selected Hturns) as [Hsubmitted _].
  apply Hsubmitted. reflexivity.
Defined.

(** Mounting the page for a user with a saved address, with and without
    edits made to the form in the meantime. *)
Lemma mounted_form_saved_address :
  let arrive (w : Shipping.Page JsValue (list (gmap string JsValue))) :=
    Shipping.mkPage (Shipping.isFormSubmitted w) (Shipping.shouldDisplayButton w)
      (Shipping.form w) false false [saved_address] in
  let edit (w : Shipping.Page JsValue (list (gmap string JsValue))) :=
    Shipping.mkPage (Shipping.isFormSubmitted w) (Shipping.shouldDisplayButton w)
      (Shipping.mkForm (js_string "Grace") (js_string "Hopper") js_undefined
         js_undefined js_undefined js_undefined js_undefined js_undefined
         js_undefined)
      false false [saved_address] in
  let mounted others :=
    fst (Shipping.settle_among (Err := string) others (λ _, Resolved ())
           (Shipping.onMounted_callback
              (OrderAddress := Shipping.AddressForm JsValue)
              js_undefined first_address (λ a, a) fresh_page)) in
  Shipping.userShipping (arrive fresh_page) = Shipping.userShipping (edit fresh_page) ∧
  Shipping.form (mounted arrive) = Shipping.form (mounted edit) ∧
  Shipping.apartment (Shipping.form (mounted arrive)) = js_string "12b" ∧
  Shipping.firstName (Shipping.form (mounted edit)) = js_string "Ada".
Proof.
  intros arrive edit mounted.
  split; [reflexivity|].
  destruct (mounted_form (Err := string)
              (OrderAddress := Shipping.AddressForm JsValue)
              js_undefined first_address (λ a, a)
              arrive edit (λ _, Resolved ()) fresh_page fresh_page eq_refl)
    as [Hform Hapartment].
  split; [exact Hform|]. split; [exact Hapartment | reflexivity].
Defined.

(** The error map of a fresh hook holds no error, and at most one after the
    session. *)
Lemma sequential_calls_single_error_session :
  single_error (error (initial (USER := string) (UPDATE_USER_PARAMS := string)
                         (Err := string) (Val := JsValue))) ∧
  single_error (error (run_sequence js_undefined mask_stars session initial)).
Proof.
  assert (single_error (error (initial (USER := string)
            (UPDATE_USER_PARAMS := string) (Err := string) (Val := JsValue))))
    as Hinitial.
  { intros k1 k2 [e1 H1]. by destruct k1. }
  split; [exact Hinitial|].
  apply (sequential_calls_single_error js_undefined mask_stars session initial
           Hinitial).
Defined.

(** Two errors at once: a [login] that fails after a [load] failed while the
    [login] was waiting. *)
Example overlapping_failures_keep_two_errors :
  let s' := overlap js_undefined mask_stars
              (throwing "Invalid credentials") (op_login credentials)
              (throwing "offline") (op_load None) initial in
  slot Slot.login (error s') = Some "Invalid credentials" ∧
  slot Slot.load (error s') = Some "offline" ∧
  loading s' = false.
Proof. by repeat split. Qed.

